(** * Binary segmentation and sparse/dense annotation conversion

    A shallow embedding of [sktime/annotation/bs.py] (class
    [BinarySegmentation]) and of the conversion helpers of
    [sktime/annotation/base/_base.py] (class [BaseSeriesAnnotator]). *)

From Stdlib Require Import ZArith QArith Qfield Qabs Qreals Lia Reals Lra Sorting.Sorted.
From stdpp Require Import base list.

Local Open Scope Z_scope.

(** ** Python exceptions and the error monad *)

Inductive exn := RuntimeError | ZeroDivisionError | IndexError | ValueError | TypeError.

Inductive result (A : Type) := Ok (a : A) | Err (e : exn).
Arguments Ok {A} a.
Arguments Err {A} e.

Global Instance result_ret : MRet result := fun A a => Ok a.
Global Instance result_bind : MBind result :=
  fun A B f m => match m with Ok a => f a | Err e => Err e end.

Definition rmap {A B} (f : A -> B) (m : result A) : result B :=
  match m with Ok a => Ok (f a) | Err e => Err e end.

(** ** Python / numpy primitives *)

(** Normalisation of a slice bound: negative bounds count from the end,
    out-of-range bounds are clamped. *)
Definition py_norm (len i : Z) : Z :=
  if i <? 0 then Z.max 0 (len + i) else Z.min i len.

(** [l.iloc[a:b]] *)
Definition py_slice {A} (l : list A) (a b : Z) : list A :=
  let len := Z.of_nat (length l) in
  let a' := py_norm len a in
  let b' := py_norm len b in
  take (Z.to_nat (b' - a')) (drop (Z.to_nat a') l).

(** [range(a, b)] *)
Definition py_range (a b : Z) : list Z :=
  map (fun k => a + Z.of_nat k) (seq 0 (Z.to_nat (b - a))).

(** [a / b] on two Python ints: true division, [ZeroDivisionError] on 0. *)
Definition py_truediv (a b : Z) : result Q :=
  if Z.eqb b 0 then Err ZeroDivisionError else Ok (inject_Z a / inject_Z b)%Q.

(** [np.sum] *)
Definition np_sum (l : list Q) : Q := fold_right Qplus 0%Q l.

Definition Qlt_bool (a b : Q) : bool := negb (Qle_bool b a).

(** [np.max]: [ValueError] on an empty array. *)
Definition np_max (l : list Q) : result Q :=
  match l with
  | [] => Err ValueError
  | x :: t => Ok (fold_left (fun m y => if Qlt_bool m y then y else m) t x)
  end.

(** [np.argmax]: index of the first occurrence of the maximum. *)
Fixpoint argmax_from (l : list Q) (i bi : nat) (b : Q) : nat :=
  match l with
  | [] => bi
  | x :: t => if Qlt_bool b x then argmax_from t (S i) i x else argmax_from t (S i) bi b
  end.

Definition np_argmax (l : list Q) : result nat :=
  match l with
  | [] => Err ValueError
  | x :: t => Ok (argmax_from t 1 0 x)
  end.

(** [list.sort] on ints (ascending). *)
Fixpoint insert_sorted (x : Z) (l : list Z) : list Z :=
  match l with
  | [] => [x]
  | y :: t => if x <=? y then x :: l else y :: insert_sorted x t
  end.

Definition list_sort (l : list Z) : list Z := fold_right insert_sorted [] l.

(** ** [BinarySegmentation] (bs.py) *)
(** The statistic is computed exactly (in [Q], or in [R] with exact square
    roots), where the code uses float64 arithmetic and [np.sum] over the
    series' dtype.  The model therefore does not reproduce rounding (exact
    ties or exact zeros of the statistic), overflow to inf/NaN, or int64
    wrap-around.  The recursion is bounded by fuel, whereas CPython raises
    [RecursionError] on deep recursion.  The theorems about this module
    below concern only behaviour that does not depend on these
    differences. *)
Module BinSeg.

(** [_cumsum_statistic], over the reals (bs.py, lines 82-93): the weights are
    square roots of Python true divisions of ints. *)
Definition cumsum_statistic (X : list Q) (start end_ change_point : Z) : result R :=
  if (change_point <? start) || (end_ <=? change_point) then Err RuntimeError else
  let n := end_ - start + 1 in
  ql ← py_truediv (end_ - change_point) (n * (change_point - start + 1));
  qr ← py_truediv (change_point - start + 1) (n * (end_ - change_point));
  let w_left := sqrt (Q2R ql) in
  let w_right := sqrt (Q2R qr) in
  let left := py_slice X start (change_point + 1) in
  let right := py_slice X (change_point + 1) (end_ + 1) in
  mret (Rabs (w_left * Q2R (np_sum left) - w_right * Q2R (np_sum right)))%R.

(** The same statistic, squared and computed exactly in [Q]:
    [(w_left*L - w_right*R)^2 = ql*L^2 - 2*L*R/n + qr*R^2], since
    [w_left*w_right = sqrt(ql*qr) = 1/n].  The search below compares these
    squares; [cumsum_statistic_sq_bridge] relates them to [cumsum_statistic]. *)
Definition cumsum_statistic_sq (X : list Q) (start end_ change_point : Z) : result Q :=
  if (change_point <? start) || (end_ <=? change_point) then Err RuntimeError else
  let n := end_ - start + 1 in
  ql ← py_truediv (end_ - change_point) (n * (change_point - start + 1));
  qr ← py_truediv (change_point - start + 1) (n * (end_ - change_point));
  let sl := np_sum (py_slice X start (change_point + 1)) in
  let sr := np_sum (py_slice X (change_point + 1) (end_ + 1)) in
  mret (ql * sl * sl - 2 * sl * sr / inject_Z n + qr * sr * sr)%Q.

(** [statistic > threshold], decided on the square of the (non-negative)
    statistic. *)
Definition gt_threshold (stat_sq threshold : Q) : bool :=
  if Qlt_bool threshold 0%Q then true else Qlt_bool (threshold * threshold) stat_sq.

(** The loop [for change_point in range(start, end): costs.append(...)]. *)
Fixpoint costs_of (X : list Q) (start end_ : Z) (cps : list Z) : result (list Q) :=
  match cps with
  | [] => Ok []
  | cp :: t =>
      c ← cumsum_statistic_sq X start end_ cp;
      cs ← costs_of X start end_ t;
      mret (c :: cs)
  end.

(** [_find_change_points] (bs.py, lines 95-132).  The list [change_points]
    that Python appends to is threaded through the calls; [fuel] bounds the
    recursion depth ([end_ - start <= fuel] suffices, see
    [find_change_points_fuel]). *)
Fixpoint find_change_points (fuel : nat) (X : list Q) (start end_ : Z)
    (threshold : Q) (change_points : list Z) : result (list Z) :=
  match fuel with
  | O => Ok change_points
  | S fuel' =>
      if end_ - start <? 1 then Ok change_points else
      costs ← costs_of X start end_ (py_range start end_);
      m ← np_max costs;
      if gt_threshold m threshold then
        i ← np_argmax costs;
        let new_change_point := start + Z.of_nat i in
        cps ← find_change_points fuel' X start new_change_point threshold
                (change_points ++ [new_change_point]);
        find_change_points fuel' X (new_change_point + 1) end_ threshold cps
      else Ok change_points
  end.

(** [_predict] (bs.py, lines 137-155), for a series with the default
    [RangeIndex], so that [X.index[change_points]] is [change_points]. *)
Definition predict (X : list Q) (threshold : Q) : result (list Z) :=
  change_points ← find_change_points (length X) X 0 (Z.of_nat (length X) - 1) threshold [];
  mret (list_sort change_points).

End BinSeg.

(** ** Sparse and dense annotations ([BaseSeriesAnnotator], _base.py) *)
Module Annot.

(** A row of the segments dataframe (columns [seg_label], [seg_start],
    [seg_end]). *)
Record Segment := mkSegment { seg_label : Z; seg_start : Z; seg_end : Z }.

(** [y_sparse]: a 1-d series of point indices ([ndim == 1]) or a 2-d
    dataframe of segments ([ndim == 2]). *)
Inductive Sparse := Points (p : list Z) | Segments (s : list Segment).

(** [astype("int32")] on an int: two's complement wrap-around. *)
Definition wrap32 (z : Z) : Z := (z + 2 ^ 31) mod 2 ^ 32 - 2 ^ 31.

(** Positional index of [iloc]/[iat]: negative positions count from the
    end, anything else out of range is an [IndexError]. *)
Definition py_pos (len p : Z) : result nat :=
  if (0 <=? p) && (p <? len) then Ok (Z.to_nat p)
  else if (- len <=? p) && (p <? 0) then Ok (Z.to_nat (len + p))
  else Err IndexError.

(** [l.iloc[p]] *)
Definition iloc_get {A} (l : list A) (p : Z) : result A :=
  i ← py_pos (Z.of_nat (length l)) p;
  match l !! i with Some x => Ok x | None => Err IndexError end.

(** [l.iloc[p] = x] *)
Definition iloc_set {A} (l : list A) (p : Z) (x : A) : result (list A) :=
  i ← py_pos (Z.of_nat (length l)) p;
  mret (<[i := x]> l).

(** [l.iloc[ps] = x] for a scalar [x]. *)
Fixpoint iloc_set_all {A} (l : list A) (ps : list Z) (x : A) : result (list A) :=
  match ps with
  | [] => Ok l
  | p :: t => l' ← iloc_set l p x; iloc_set_all l' t x
  end.

(** [l.iloc[df[col]] = f(df)]: one position and one value per row, assigned
    in row order (a later row wins on a repeated position). *)
Fixpoint iloc_set_rows {A} (l : list A) (rows : list Segment)
    (pos : Segment -> Z) (val : Segment -> A) : result (list A) :=
  match rows with
  | [] => Ok l
  | r :: t => l' ← iloc_set l (pos r) (val r); iloc_set_rows l' t pos val
  end.

(** [np.zeros(n)] / [np.full(n, v)]: negative sizes are a [ValueError]. *)
Definition np_full {A} (n : Z) (v : A) : result (list A) :=
  if n <? 0 then Err ValueError else Ok (replicate (Z.to_nat n) v).

(** [Series.ffill()] over a float series, [None] standing for [NaN]. *)
Fixpoint ffill_from (last : option Z) (l : list (option Z)) : list (option Z) :=
  match l with
  | [] => []
  | None :: t => last :: ffill_from last t
  | Some v :: t => Some v :: ffill_from (Some v) t
  end.

Definition ffill (l : list (option Z)) : list (option Z) := ffill_from None l.

(** [astype("int32")] of a float series: a remaining [NaN] is an error
    ([IntCastingNaNError], a [ValueError]). *)
Fixpoint astype_int (l : list (option Z)) : result (list Z) :=
  match l with
  | [] => Ok []
  | None :: _ => Err ValueError
  | Some v :: t => t' ← astype_int t; mret (wrap32 v :: t')
  end.

(** [if np.isnan(y_dense.iat[0]): y_dense.iat[0] = -1] *)
Definition fill_first (l : list (option Z)) : result (list (option Z)) :=
  match l with
  | [] => Err IndexError
  | None :: t => Ok (Some (-1) :: t)
  | v :: t => Ok (v :: t)
  end.

(** [y_dense[y_dense < 0] = -1] *)
Definition clamp_negative (l : list Z) : list Z :=
  map (fun v => if v <? 0 then -1 else v) l.

(** [sparse_to_dense] (_base.py, lines 490-537). *)
Definition sparse_to_dense (y_sparse : Sparse) (length_ : option Z) : result (list Z) :=
  match y_sparse with
  | Points p =>
      final_index ← iloc_get p (-1);
      let length_ := default (final_index + 1) length_ in
      if length_ <=? final_index then Err RuntimeError else
      y_dense ← np_full length_ 0;
      iloc_set_all y_dense p 1
  | Segments s =>
      final_index ← iloc_get (map seg_end s) (-1);
      let length_ := default (final_index + 1) length_ in
      if length_ <=? final_index then Err RuntimeError else
      y0 ← np_full length_ None;
      y1 ← iloc_set_rows y0 s seg_start (fun r => Some (wrap32 (seg_label r)));
      y2 ← iloc_set_rows y1 s seg_end (fun r => Some (wrap32 (- wrap32 (seg_label r))));
      y3 ← fill_first y2;
      y4 ← astype_int (ffill y3);
      y5 ← iloc_set_rows y4 s seg_end (fun r => wrap32 (seg_label r));
      mret (clamp_negative y5)
  end.

(** [np.where(mask)[0]] *)
Fixpoint where_from (i : Z) (mask : list bool) : list Z :=
  match mask with
  | [] => []
  | b :: t => if b then i :: where_from (i + 1) t else where_from (i + 1) t
  end.

Definition np_where (mask : list bool) : list Z := where_from 0 mask.

(** [y.diff()] and [y.diff(-1)], [None] standing for [NaN]. *)
Definition diff_prev (y : list Z) : list (option Z) :=
  match y with
  | [] => []
  | _ :: t => None :: zip_with (fun a b => Some (b - a)) y t
  end.

Definition diff_next (y : list Z) : list (option Z) :=
  match y with
  | [] => []
  | _ :: t => zip_with (fun a b => Some (a - b)) y t ++ [None]
  end.

(** [d != 0], where [NaN != 0] holds. *)
Definition ne0 (d : option Z) : bool :=
  match d with None => true | Some v => negb (v =? 0) end.

(** [pd.DataFrame] from three columns: their lengths must agree. *)
Fixpoint make_segments (ls ss es : list Z) : result (list Segment) :=
  match ls, ss, es with
  | [], [], [] => Ok []
  | l :: ls', s :: ss', e :: es' =>
      t ← make_segments ls' ss' es'; mret (mkSegment l s e :: t)
  | _, _, _ => Err ValueError
  end.

Fixpoint iloc_get_many (y : list Z) (ps : list Z) : result (list Z) :=
  match ps with
  | [] => Ok []
  | p :: t => v ← iloc_get y p; vs ← iloc_get_many y t; mret (v :: vs)
  end.

(** [dense_to_sparse] (_base.py, lines 598-656). *)
Definition dense_to_sparse (y_dense : list Z) : result Sparse :=
  if existsb (fun v => v =? 0) y_dense then
    Ok (Points (np_where (map (fun v => v =? 1) y_dense)))
  else
    let segment_start_indexes := np_where (map ne0 (diff_prev y_dense)) in
    let segment_end_indexes := np_where (map ne0 (diff_next y_dense)) in
    segment_labels ← iloc_get_many y_dense segment_start_indexes;
    y_sparse ← make_segments segment_labels segment_start_indexes segment_end_indexes;
    mret (Segments (filter (fun r => negb (seg_label r =? -1)) y_sparse)).

(** [np.min]: [ValueError] on an empty array. *)
Definition np_min (l : list Z) : result Z :=
  match l with [] => Err ValueError | x :: t => Ok (fold_left Z.min t x) end.

(** Consecutive pairs of [breaks]. *)
Fixpoint intervals_of (breaks : list Z) : list (Z * Z) :=
  match breaks with
  | x :: ((y :: _) as t) => (x, y) :: intervals_of t
  | _ => []
  end.

(** [pd.IntervalIndex.from_breaks(breaks, closed="left")]: intervals
    [[b_i, b_(i+1))]; an interval whose left side exceeds its right side is a
    [ValueError]. *)
Definition interval_index_from_breaks (breaks : list Z) : result (list (Z * Z)) :=
  let iv := intervals_of breaks in
  if forallb (fun lr => lr.1 <=? lr.2) iv then Ok iv else Err ValueError.

(** [segments.loc[in_range] = range(1, n + 1)] and
    [segments.loc[~in_range] = -1], with [in_range = index.left >= fcp]. *)
Fixpoint label_intervals (fcp next : Z) (iv : list (Z * Z)) : list (Z * Z * Z) :=
  match iv with
  | [] => []
  | (l, r) :: t =>
      if fcp <=? l then (l, r, next) :: label_intervals fcp (next + 1) t
      else (l, r, -1) :: label_intervals fcp next t
  end.

(** [start > breaks.min()]: comparing [None] with an int is a
    [TypeError]. *)
Definition check_start (start : option Z) (m : Z) : result unit :=
  match start with
  | None => Err TypeError
  | Some s => if m <? s then Err ValueError else Ok tt
  end.

(** [change_points_to_segments] (_base.py, lines 658-711); the result lists
    the intervals [[left, right)] of the index with their labels. *)
Definition change_points_to_segments (y_sparse : list Z) (start end_ : option Z)
    : result (list (Z * Z * Z)) :=
  m ← np_min y_sparse;
  check_start start m;;
  let first_change_point := m in
  let breaks := match start with Some s => s :: y_sparse | None => y_sparse end in
  let breaks := match end_ with Some e => breaks ++ [e] | None => breaks end in
  index ← interval_index_from_breaks breaks;
  mret (label_intervals first_change_point 1 index).

(** [diff.iat[0] = 0] *)
Definition set_first (d : list (option Z)) : result (list (option Z)) :=
  match d with [] => Err IndexError | _ :: t => Ok (Some 0 :: t) end.

(** [segments_to_change_points] (_base.py, lines 713-748). *)
Definition segments_to_change_points (y_sparse : list Segment) : result (list Z) :=
  y_dense ← sparse_to_dense (Segments y_sparse) None;
  diff ← set_first (diff_prev y_dense);
  mret (np_where (map ne0 diff)).

(** [max(index)] of a non-empty points series, as the spec writes the
    default length and the length check. *)
Definition max_index (p : list Z) : Z :=
  match p with [] => 0 | x :: t => fold_left Z.max t x end.

(** A valid segments table (spec, data model): each segment has
    [0 <= seg_start <= seg_end] and a positive label that fits the int32
    the code casts it to, and the segments are listed in order without
    overlap. *)
Fixpoint segments_valid (segs : list Segment) : Prop :=
  match segs with
  | [] => True
  | g :: rest =>
      0 <= seg_start g <= seg_end g /\ 0 < seg_label g < 2 ^ 31 /\
      Forall (fun h => seg_end g < seg_start h) rest /\ segments_valid rest
  end.

(** Segments that touch (one ends right before the other starts) carry
    different labels. *)
Definition touching_labels_differ (segs : list Segment) : Prop :=
  forall g h, In g segs -> In h segs ->
    seg_end h + 1 = seg_start g -> seg_label h <> seg_label g.

(** The last segment of the table starting at or before position [i]. *)
Fixpoint last_started (segs : list Segment) (i : Z) : option Segment :=
  match segs with
  | [] => None
  | g :: rest =>
      match last_started rest i with
      | Some h => Some h
      | None => if seg_start g <=? i then Some g else None
      end
  end.

(** The forward-filled value at position [i], before the end positions
    are restored: the label inside the last segment started at or before
    [i], the negated label from that segment's end on, -1 before any
    segment. *)
Definition filled_at (segs : list Segment) (i : Z) : Z :=
  match last_started segs i with
  | Some g => if i <? seg_end g then seg_label g else - seg_label g
  | None => -1
  end.

End Annot.

(** ** Properties of the binary segmentation search *)
Module BinSegFacts.
Import BinSeg.

Lemma py_range_spec (a b cp : Z) : In cp (py_range a b) <-> a <= cp < b.
Proof.
  unfold py_range. rewrite in_map_iff. split.
  - intros (k & <- & Hk). apply in_seq in Hk. lia.
  - intros H. exists (Z.to_nat (cp - a)). split; [lia|]. apply in_seq. lia.
Qed.

Lemma py_range_length (a b : Z) : length (py_range a b) = Z.to_nat (b - a).
Proof. unfold py_range. by rewrite length_map, length_seq. Qed.

Lemma py_truediv_ok (a b : Z) : b <> 0 -> py_truediv a b = Ok (inject_Z a / inject_Z b)%Q.
Proof. intros Hb. unfold py_truediv. by rewrite (proj2 (Z.eqb_neq b 0) Hb). Qed.

Lemma in_window_guard (start end_ cp : Z) :
  start <= cp < end_ -> (cp <? start) || (end_ <=? cp) = false.
Proof. intros H. apply orb_false_iff. split; apply Z.ltb_ge || apply Z.leb_gt; lia. Qed.

Lemma out_window_guard (start end_ cp : Z) :
  cp < start \/ end_ <= cp -> (cp <? start) || (end_ <=? cp) = true.
Proof. intros [H|H]; apply orb_true_iff; [left; apply Z.ltb_lt | right; apply Z.leb_le]; lia. Qed.

(** Both weight denominators of the statistic are positive inside the
    window. *)
Lemma denominators_pos (start end_ cp : Z) :
  start <= cp < end_ ->
  0 < (end_ - start + 1) * (cp - start + 1) /\ 0 < (end_ - start + 1) * (end_ - cp).
Proof. intros H. split; apply Z.mul_pos_pos; lia. Qed.

Lemma cumsum_statistic_sq_ok (X : list Q) (start end_ cp : Z) :
  start <= cp < end_ -> exists c, cumsum_statistic_sq X start end_ cp = Ok c.
Proof.
  intros H. destruct (denominators_pos start end_ cp H) as [H1 H2].
  unfold cumsum_statistic_sq. rewrite in_window_guard by done.
  rewrite !py_truediv_ok by lia. simpl. eauto.
Qed.

Lemma costs_of_ok (X : list Q) (start end_ : Z) (cps : list Z) :
  (forall cp, In cp cps -> start <= cp < end_) ->
  exists cs, costs_of X start end_ cps = Ok cs /\ length cs = length cps.
Proof.
  induction cps as [|cp t IH]; intros Hin; simpl.
  - by exists [].
  - destruct (cumsum_statistic_sq_ok X start end_ cp) as [c ->]; [apply Hin; by left|].
    destruct IH as [cs [-> Hl]]; [intros; apply Hin; by right|].
    exists (c :: cs). simpl. by rewrite Hl.
Qed.

Lemma costs_of_range_ok (X : list Q) (start end_ : Z) :
  exists cs, costs_of X start end_ (py_range start end_) = Ok cs /\
             length cs = Z.to_nat (end_ - start).
Proof.
  destruct (costs_of_ok X start end_ (py_range start end_)) as [cs [H Hl]].
  - intros cp. apply py_range_spec.
  - exists cs. by rewrite H, Hl, py_range_length.
Qed.

(** The search never raises: every statistic it requests is inside its
    window and every [np.max] / [np.argmax] it calls is on a non-empty
    array. *)
Lemma find_change_points_ok (fuel : nat) (X : list Q) (start end_ : Z)
    (threshold : Q) (acc : list Z) :
  exists r, find_change_points fuel X start end_ threshold acc = Ok r.
Proof.
  revert start end_ acc. induction fuel as [|fuel IH]; intros start end_ acc; simpl; eauto.
  destruct (end_ - start <? 1) eqn:Hw; eauto.
  apply Z.ltb_ge in Hw.
  destruct (costs_of_range_ok X start end_) as [cs [-> Hl]]. simpl.
  destruct cs as [|c cs]; [simpl in Hl; lia|]. simpl.
  destruct (gt_threshold _ threshold); simpl; eauto.
  destruct (IH start (start + Z.of_nat (argmax_from cs 1 0 c)) (acc ++ [start + Z.of_nat (argmax_from cs 1 0 c)])) as [r ->].
  simpl. apply IH.
Qed.

(** The accumulator is only appended to: the points found do not depend on
    what it held before. *)
Lemma find_change_points_app (fuel : nat) (X : list Q) (start end_ : Z)
    (threshold : Q) (acc : list Z) :
  find_change_points fuel X start end_ threshold acc =
  rmap (app acc) (find_change_points fuel X start end_ threshold []).
Proof.
  unfold rmap. revert start end_ acc.
  induction fuel as [|fuel IH]; intros start end_ acc; simpl.
  { by rewrite app_nil_r. }
  destruct (end_ - start <? 1); [by rewrite app_nil_r|].
  destruct (costs_of X start end_ (py_range start end_)) as [cs|e]; simpl; [|done].
  destruct (np_max cs) as [m|e]; simpl; [|done].
  destruct (gt_threshold m threshold); simpl; [|by rewrite app_nil_r].
  destruct (np_argmax cs) as [i|e]; simpl; [|done].
  set (cp := start + Z.of_nat i).
  rewrite (IH start cp (acc ++ [cp])), (IH start cp [cp]).
  destruct (find_change_points_ok fuel X start cp threshold []) as [r1 ->]. simpl.
  rewrite (IH (cp + 1) end_ ((acc ++ [cp]) ++ r1)), (IH (cp + 1) end_ (cp :: r1)).
  destruct (find_change_points fuel X (cp + 1) end_ threshold []); simpl; [|done].
  by rewrite <- !app_assoc.
Qed.

Lemma gt_threshold_mono (c t1 t2 : Q) :
  (t1 <= t2)%Q -> gt_threshold c t2 = true -> gt_threshold c t1 = true.
Proof.
  unfold gt_threshold, Qlt_bool. intros Hle.
  destruct (Qle_bool 0 t1) eqn:H1; simpl; [|done].
  apply Qle_bool_iff in H1.
  destruct (Qle_bool 0 t2) eqn:H2; simpl.
  - rewrite !negb_true_iff, <- !not_true_iff_false, !Qle_bool_iff.
    intros H3 H4. apply H3.
    apply Qle_trans with (t1 * t1)%Q; [done|].
    apply Qmult_le_compat_nonneg; split; done.
  - apply not_true_iff_false in H2. rewrite Qle_bool_iff in H2.
    exfalso. apply H2. apply Qle_trans with t1; done.
Qed.

(** One step of threshold monotonicity: a window split at the higher
    threshold is split, at the same point, at the lower one. *)
Lemma find_change_points_antitone (fuel : nat) (X : list Q) (start end_ : Z)
    (t1 t2 : Q) (r1 r2 : list Z) :
  (t1 <= t2)%Q ->
  find_change_points fuel X start end_ t1 [] = Ok r1 ->
  find_change_points fuel X start end_ t2 [] = Ok r2 ->
  (length r2 <= length r1)%nat.
Proof.
  intros Hle. revert start end_ r1 r2.
  induction fuel as [|fuel IH]; intros start end_ r1 r2; simpl.
  { intros [= <-] [= <-]. done. }
  destruct (end_ - start <? 1). { intros [= <-] [= <-]. done. }
  destruct (costs_of X start end_ (py_range start end_)) as [cs|e]; simpl; [|discriminate].
  destruct (np_max cs) as [m|e]; simpl; [|discriminate].
  destruct (gt_threshold m t2) eqn:G2.
  2:{ intros _ [= <-]. simpl. lia. }
  rewrite (gt_threshold_mono m t1 t2 Hle G2).
  destruct (np_argmax cs) as [i|e]; simpl; [|discriminate].
  set (cp := start + Z.of_nat i).
  rewrite (find_change_points_app fuel X start cp t1 [cp]),
          (find_change_points_app fuel X start cp t2 [cp]).
  destruct (find_change_points_ok fuel X start cp t1 []) as [a1 Ha1].
  destruct (find_change_points_ok fuel X start cp t2 []) as [a2 Ha2].
  rewrite Ha1, Ha2. simpl.
  rewrite (find_change_points_app fuel X (cp + 1) end_ t1 (cp :: a1)),
          (find_change_points_app fuel X (cp + 1) end_ t2 (cp :: a2)).
  destruct (find_change_points_ok fuel X (cp + 1) end_ t1 []) as [b1 Hb1].
  destruct (find_change_points_ok fuel X (cp + 1) end_ t2 []) as [b2 Hb2].
  rewrite Hb1, Hb2. simpl. intros [= <-] [= <-]. simpl.
  rewrite !length_app.
  pose proof (IH start cp a1 a2 Ha1 Ha2).
  pose proof (IH (cp + 1) end_ b1 b2 Hb1 Hb2). lia.
Qed.

Lemma insert_sorted_length (x : Z) (l : list Z) :
  length (insert_sorted x l) = S (length l).
Proof. induction l as [|y t IH]; simpl; [done|]. destruct (x <=? y); simpl; auto. Qed.

Lemma list_sort_length (l : list Z) : length (list_sort l) = length l.
Proof. induction l as [|x t IH]; simpl; [done|]. by rewrite insert_sorted_length, IH. Qed.

(** *** The search on squared statistics is the search on statistics *)

Lemma Q2R_inject_Z (z : Z) : Q2R (inject_Z z) = IZR z.
Proof. unfold Q2R, inject_Z. simpl. rewrite Rinv_1. ring. Qed.

Lemma sqrt_weights (a b n : R) :
  (0 < a)%R -> (0 < b)%R -> (0 < n)%R ->
  (sqrt (a / (n * b)) * sqrt (b / (n * a)) = / n)%R.
Proof.
  intros Ha Hb Hn.
  rewrite <- sqrt_mult by (apply Rlt_le, Rdiv_lt_0_compat; nra).
  replace (a / (n * b) * (b / (n * a)))%R with (/ n * / n)%R by (field; lra).
  apply sqrt_square. left. by apply Rinv_0_lt_compat.
Qed.

(** Inside its window, [cumsum_statistic_sq] is the square of the
    (non-negative) statistic [cumsum_statistic] of the source. *)
Lemma cumsum_statistic_sq_bridge (X : list Q) (start end_ cp : Z) :
  start <= cp < end_ ->
  exists (r : R) (c : Q),
    cumsum_statistic X start end_ cp = Ok r /\
    cumsum_statistic_sq X start end_ cp = Ok c /\
    (0 <= r)%R /\ Q2R c = (r * r)%R.
Proof.
  intros H. destruct (denominators_pos start end_ cp H) as [H1 H2].
  unfold cumsum_statistic, cumsum_statistic_sq. rewrite in_window_guard by done.
  rewrite !py_truediv_ok by lia. simpl.
  eexists _, _. split; [reflexivity|]. split; [reflexivity|].
  split; [apply Rabs_pos|].
  set (SL := np_sum (py_slice X start (cp + 1))).
  set (SR := np_sum (py_slice X (cp + 1) (end_ + 1))).
  set (n := end_ - start + 1).
  assert (Hn : n <> 0) by lia.
  unfold Qdiv. rewrite Q2R_plus, Q2R_minus, !Q2R_mult.
  rewrite !Q2R_inv by (unfold Qeq, inject_Z; simpl; lia).
  rewrite !Q2R_inject_Z.
  assert (Q2R 2 = 2)%R as -> by (unfold Q2R; simpl; field).
  rewrite !mult_IZR.
  assert (Ha : (0 < IZR (end_ - cp))%R) by (apply IZR_lt; lia).
  assert (Hb : (0 < IZR (cp - start + 1))%R) by (apply IZR_lt; lia).
  assert (HN : (0 < IZR n)%R) by (apply IZR_lt; lia).
  set (A := IZR (end_ - cp)) in *. set (B := IZR (cp - start + 1)) in *.
  set (N := IZR n) in *.
  pose proof (sqrt_weights A B N Ha Hb HN) as HW. unfold Rdiv in HW.
  pose proof (sqrt_sqrt (A * / (N * B)) ltac:(apply Rlt_le, Rdiv_lt_0_compat; nra)) as HL.
  pose proof (sqrt_sqrt (B * / (N * A)) ltac:(apply Rlt_le, Rdiv_lt_0_compat; nra)) as HR.
  set (WL := sqrt (A * / (N * B))) in *. set (WR := sqrt (B * / (N * A))) in *.
  rewrite <- Rabs_mult, Rabs_right by (apply Rle_ge, Rle_0_sqr).
  transitivity ((WL * WL) * Q2R SL * Q2R SL - 2 * (WL * WR) * Q2R SL * Q2R SR
                + (WR * WR) * Q2R SR * Q2R SR)%R.
  - rewrite HL, HR, HW. field. lra.
  - ring.
Qed.

End BinSegFacts.

(** ** Shape of the search's result *)
Module BinSegMore.
Import BinSeg BinSegFacts.

Lemma argmax_from_lt (l : list Q) (i bi : nat) (b : Q) :
  (bi < i)%nat -> (argmax_from l i bi b < i + length l)%nat.
Proof.
  revert i bi b. induction l as [|x t IH]; intros i bi b Hbi; simpl; [lia|].
  destruct (Qlt_bool b x); [specialize (IH (S i) i x)|specialize (IH (S i) bi b)]; lia.
Qed.

(** One level of the recursion, with the accumulator split off: the new
    point, then the points of the left window, then those of the right
    one. *)
Lemma find_change_points_step (fuel : nat) (X : list Q) (start end_ : Z) (t : Q) :
  find_change_points (S fuel) X start end_ t [] =
  if end_ - start <? 1 then Ok [] else
  costs ← costs_of X start end_ (py_range start end_);
  m ← np_max costs;
  if gt_threshold m t then
    i ← np_argmax costs;
    let cp := start + Z.of_nat i in
    l ← find_change_points fuel X start cp t [];
    r ← find_change_points fuel X (cp + 1) end_ t [];
    mret (cp :: l ++ r)
  else Ok [].
Proof.
  simpl. destruct (end_ - start <? 1); [done|].
  destruct (costs_of X start end_ (py_range start end_)) as [cs|e]; simpl; [|done].
  destruct (np_max cs) as [m|e]; simpl; [|done].
  destruct (gt_threshold m t); [|done].
  destruct (np_argmax cs) as [i|e]; simpl; [|done].
  rewrite find_change_points_app.
  destruct (find_change_points fuel X start (start + Z.of_nat i) t []) as [l|e]; simpl; [|done].
  rewrite find_change_points_app.
  by destruct (find_change_points fuel X (start + Z.of_nat i + 1) end_ t []).
Qed.

(** The candidate picked in a window of width [end_ - start >= 1] lies in
    [[start, end_)]. *)
Lemma np_argmax_costs (X : list Q) (start end_ : Z) (cs : list Q) :
  1 <= end_ - start -> costs_of X start end_ (py_range start end_) = Ok cs ->
  exists i, np_argmax cs = Ok i /\ (Z.of_nat i < end_ - start).
Proof.
  intros Hw Hc. destruct (costs_of_range_ok X start end_) as (cs' & Hc' & Hl).
  rewrite Hc in Hc'. injection Hc' as <-.
  destruct cs as [|c cs]; [simpl in Hl; lia|]. simpl.
  eexists. split; [reflexivity|]. pose proof (argmax_from_lt cs 1 0 c ltac:(lia)).
  simpl in Hl. lia.
Qed.

(** More fuel than the window is wide changes nothing. *)
Lemma find_change_points_fuel (f1 f2 : nat) (X : list Q) (start end_ : Z) (t : Q) :
  end_ - start <= Z.of_nat f1 -> (f1 <= f2)%nat ->
  find_change_points f1 X start end_ t [] = find_change_points f2 X start end_ t [].
Proof.
  revert f2 start end_. induction f1 as [|f1 IH]; intros f2 start end_ Hw Hf.
  - destruct f2 as [|f2]; [done|]. simpl.
    by rewrite (proj2 (Z.ltb_lt _ _)) by lia.
  - destruct f2 as [|f2]; [lia|]. rewrite !find_change_points_step.
    destruct (Z.ltb_spec (end_ - start) 1); [done|].
    destruct (costs_of X start end_ (py_range start end_)) as [cs|e] eqn:Hc; simpl; [|done].
    destruct (np_max cs) as [m|e]; simpl; [|done].
    destruct (gt_threshold m t); [|done].
    destruct (np_argmax_costs X start end_ cs ltac:(lia) Hc) as (i & -> & Hi). simpl.
    rewrite (IH f2 start (start + Z.of_nat i)) by lia.
    by rewrite (IH f2 (start + Z.of_nat i + 1) end_) by lia.
Qed.

End BinSegMore.

Import Annot.

(** ** Properties of the conversions *)
Module AnnotFacts.

Lemma py_pos_in (len p : Z) : 0 <= p < len -> py_pos len p = Ok (Z.to_nat p).
Proof.
  intros H. unfold py_pos.
  rewrite (proj2 (Z.leb_le 0 p)), (proj2 (Z.ltb_lt p len)) by lia. done.
Qed.

Lemma iloc_set_in {A} (l : list A) (p : Z) (x : A) :
  0 <= p < Z.of_nat (length l) -> iloc_set l p x = Ok (<[Z.to_nat p := x]> l).
Proof. intros H. unfold iloc_set. by rewrite py_pos_in. Qed.

(** [l.iloc[ps] = x] with every position in range. *)
Lemma iloc_set_all_spec {A} (l : list A) (ps : list Z) (x : A) :
  Forall (fun p => 0 <= p < Z.of_nat (length l)) ps ->
  exists l', iloc_set_all l ps x = Ok l' /\ length l' = length l /\
    (forall i, In (Z.of_nat i) ps -> (i < length l)%nat -> l' !! i = Some x) /\
    (forall i, ~ In (Z.of_nat i) ps -> l' !! i = l !! i).
Proof.
  revert l. induction ps as [|p t IH]; intros l Hall; simpl.
  - exists l. repeat split; try done.
  - apply Forall_cons in Hall as [Hp Ht].
    rewrite iloc_set_in by done. simpl.
    destruct (IH (<[Z.to_nat p := x]> l)) as (l' & Hl' & Hlen & Hin & Hout).
    { rewrite length_insert. done. }
    rewrite length_insert in Hlen.
    exists l'. split; [done|]. split; [done|]. split.
    + intros i Hi Hlt. destruct (in_dec Z.eq_dec (Z.of_nat i) t) as [Ht'|Ht'].
      * apply Hin; [done|]. by rewrite length_insert.
      * rewrite Hout by done. destruct Hi as [Hpi|Hi]; [|done].
        subst p. rewrite Nat2Z.id. by apply list_lookup_insert_eq.
    + intros i Hi. rewrite Hout by (intros H; apply Hi; by right).
      apply list_lookup_insert_ne. intros Heq. apply Hi. left. subst i. lia.
Qed.

(** [iloc[-1]] reads the last element. *)
Lemma iloc_get_last {A} (l : list A) (x : A) :
  last l = Some x -> iloc_get l (-1) = Ok x.
Proof.
  intros Hx. assert (Hne : l <> []) by (intros ->; discriminate).
  assert (Hlen : (0 < length l)%nat) by (destruct l; [done|simpl; lia]).
  unfold iloc_get, py_pos. simpl.
  rewrite (proj2 (Z.leb_le _ (-1))) by lia. simpl.
  replace (Z.to_nat (Z.of_nat (length l) + -1)) with (pred (length l)) by lia.
  by rewrite <- last_lookup, Hx.
Qed.

(** For a strictly increasing series, the last element is [max(index)],
    and every index is at most it. *)
Lemma max_index_last (p : list Z) :
  p <> [] -> StronglySorted Z.lt p ->
  last p = Some (max_index p) /\ Forall (fun x => x <= max_index p) p.
Proof.
  intros Hne Hs. induction Hs as [|x t Hs IH Hf]; [done|].
  destruct t as [|y t'].
  - split; [reflexivity|]. simpl. constructor; [lia|constructor].
  - assert (Hxy : x < y) by (by inversion Hf).
    assert (Hm : max_index (x :: y :: t') = max_index (y :: t')).
    { simpl. by rewrite Z.max_r by lia. }
    destruct IH as [Hg Hle]; [done|]. rewrite Hm, last_cons_cons. split; [done|].
    constructor; [|done]. inversion Hle. lia.
Qed.

Lemma sorted_strongly (p : list Z) : Sorted Z.lt p -> StronglySorted Z.lt p.
Proof. apply Sorted_StronglySorted. intros x y z. lia. Qed.

(** The points branch of [sparse_to_dense] on a non-empty, strictly
    increasing, non-negative series. *)
Lemma sparse_to_dense_points (p : list Z) (length_ : option Z) :
  p <> [] -> Sorted Z.lt p -> Forall (Z.le 0) p ->
  let L := default (max_index p + 1) length_ in
  (L <= max_index p -> sparse_to_dense (Points p) length_ = Err RuntimeError) /\
  (max_index p < L ->
   exists d, sparse_to_dense (Points p) length_ = Ok d /\ length d = Z.to_nat L /\
     forall i, (i < length d)%nat ->
       (In (Z.of_nat i) p -> d !! i = Some 1) /\ (~ In (Z.of_nat i) p -> d !! i = Some 0)).
Proof.
  intros Hne Hs Hpos L. apply sorted_strongly in Hs.
  destruct (max_index_last p Hne Hs) as [Hg Hle].
  simpl. rewrite (iloc_get_last p _ Hg). simpl. fold L. split.
  - intros HL. by rewrite (proj2 (Z.leb_le L (max_index p)) HL).
  - intros HL. rewrite (proj2 (Z.leb_gt L (max_index p)) HL).
    unfold np_full. rewrite (proj2 (Z.ltb_ge L 0)) by (destruct p; [done|]; inversion Hpos; inversion Hle; lia).
    simpl.
    destruct (iloc_set_all_spec (replicate (Z.to_nat L) 0) p 1) as (d & Hd & Hlen & Hin & Hout).
    { rewrite length_replicate. apply Forall_forall. intros x Hx.
      rewrite Forall_forall in Hpos, Hle. specialize (Hpos x Hx). specialize (Hle x Hx). lia. }
    rewrite length_replicate in Hlen.
    exists d. split; [done|]. split; [done|].
    intros i Hi. split.
    + intros Hip. apply Hin; [done|]. rewrite length_replicate. lia.
    + intros Hip. rewrite Hout by done. apply lookup_replicate_2. lia.
Qed.

Lemma lookup_map {A B} (f : A -> B) (l : list A) (i : nat) :
  map f l !! i = option_map f (l !! i).
Proof. revert i. induction l as [|x t IH]; intros [|i]; simpl; auto. Qed.

(** [np.where(mask)[0]]: the positions holding [True], in increasing
    order. *)
Lemma where_from_spec (k : Z) (mask : list bool) (z : Z) :
  In z (where_from k mask) <-> exists i, mask !! i = Some true /\ z = k + Z.of_nat i.
Proof.
  revert k. induction mask as [|b t IH]; intros k; simpl.
  - split; [done|]. intros (i & Hi & _). done.
  - destruct b; simpl; rewrite ?IH; split.
    + intros [<-|(i & Hi & ->)]; [exists 0%nat; split; [done|lia]|].
      exists (S i). split; [done|lia].
    + intros ([|i] & Hi & ->); [left; lia|]. right. exists i. split; [done|lia].
    + intros (i & Hi & ->). exists (S i). split; [done|lia].
    + intros ([|i] & Hi & ->); [done|]. exists i. split; [done|lia].
Qed.

Lemma where_from_sorted (k : Z) (mask : list bool) :
  StronglySorted Z.lt (where_from k mask).
Proof.
  revert k. induction mask as [|b t IH]; intros k; simpl; [constructor|].
  destruct b; [|apply IH]. constructor; [apply IH|].
  apply List.Forall_forall. intros z Hz. apply where_from_spec in Hz as (i & _ & ->). lia.
Qed.

(** Two strictly increasing lists with the same elements are equal. *)
Lemma strictly_sorted_ext (l1 l2 : list Z) :
  StronglySorted Z.lt l1 -> StronglySorted Z.lt l2 ->
  (forall z, In z l1 <-> In z l2) -> l1 = l2.
Proof.
  revert l2. induction l1 as [|x t IH]; intros l2 H1 H2 Hiff.
  - destruct l2 as [|y t2]; [done|]. exfalso. apply (Hiff y). by left.
  - destruct l2 as [|y t2]; [exfalso; apply (Hiff x); by left|].
    apply StronglySorted_inv in H1 as [H1 F1]. apply StronglySorted_inv in H2 as [H2 F2].
    rewrite List.Forall_forall in F1, F2.
    assert (x = y) as <-.
    { destruct (proj1 (Hiff x) (or_introl eq_refl)) as [|Hx]; [done|].
      destruct (proj2 (Hiff y) (or_introl eq_refl)) as [|Hy]; [done|].
      specialize (F1 y Hy). specialize (F2 x Hx). lia. }
    f_equal. apply IH; [done|done|]. intros z. split.
    + intros Hz. destruct (proj1 (Hiff z) (or_intror Hz)) as [->|]; [|done].
      specialize (F1 z Hz). lia.
    + intros Hz. destruct (proj2 (Hiff z) (or_intror Hz)) as [->|]; [|done].
      specialize (F2 z Hz). lia.
Qed.

(** Fewer points than positions: some position of the dense series is 0. *)
Lemma dense_points_has_zero (p : list Z) (d : list Z) :
  (length p < length d)%nat ->
  (forall i, (i < length d)%nat ->
     (In (Z.of_nat i) p -> d !! i = Some 1) /\ (~ In (Z.of_nat i) p -> d !! i = Some 0)) ->
  existsb (fun v => v =? 0) d = true.
Proof.
  intros Hlt Hd. destruct (existsb (fun v => v =? 0) d) eqn:He; [done|exfalso].
  assert (Hall : forall i, (i < length d)%nat -> In (Z.of_nat i) p).
  { intros i Hi. destruct (in_dec Z.eq_dec (Z.of_nat i) p) as [|Hn]; [done|].
    apply (proj2 (Hd i Hi)) in Hn.
    assert (Hex : existsb (fun v => v =? 0) d = true).
    { apply existsb_exists. exists 0. split; [|done].
      apply list_elem_of_In. by apply (list_elem_of_lookup_2 _ i). }
    congruence. }
  assert (Hincl : incl (seq 0 (length d)) (map Z.to_nat p)).
  { intros k Hk. apply in_seq in Hk. apply in_map_iff. exists (Z.of_nat k).
    split; [lia|]. apply Hall. lia. }
  apply (NoDup_incl_length (seq_NoDup _ _)) in Hincl.
  rewrite length_seq, length_map in Hincl. lia.
Qed.

(** *** [change_points_to_segments] *)

Lemma np_min_sorted (x : Z) (t : list Z) :
  Sorted Z.lt (x :: t) -> np_min (x :: t) = Ok x.
Proof.
  intros Hs. apply sorted_strongly, StronglySorted_inv in Hs as [_ Hf].
  simpl. f_equal. induction t as [|y t IH]; [done|].
  apply Forall_cons in Hf as [Hy Hf]. simpl.
  rewrite Z.min_l by lia. by apply IH.
Qed.

Lemma sorted_lt_le (l : list Z) : Sorted Z.lt l -> Sorted Z.le l.
Proof.
  induction 1 as [|a l Hs IH Hh]; constructor; [done|].
  inversion Hh; constructor. lia.
Qed.

Lemma sorted_snoc (l : list Z) (e : Z) :
  Sorted Z.le l -> Forall (fun y => y <= e) l -> Sorted Z.le (l ++ [e]).
Proof.
  induction l as [|a l IH]; intros Hs Hf; simpl; [repeat constructor|].
  apply Sorted_inv in Hs as [Hs Hh]. apply Forall_cons in Hf as [Ha Hf].
  constructor; [by apply IH|].
  destruct l as [|b l]; simpl; constructor; [lia|]. by inversion Hh.
Qed.

(** Sorted breaks give well-formed intervals. *)
Lemma intervals_of_sorted (b : list Z) :
  Sorted Z.le b -> forallb (fun lr => lr.1 <=? lr.2) (intervals_of b) = true.
Proof.
  induction b as [|a b IH]; intros Hs; [done|].
  destruct b as [|c b]; [done|].
  apply Sorted_inv in Hs as [Hs Hh]. inversion Hh as [|? ? Hac].
  change (intervals_of (a :: c :: b)) with ((a, c) :: intervals_of (c :: b)).
  simpl. apply andb_true_intro. split; [by apply Z.leb_le|]. by apply IH.
Qed.

(** The last break before an appended [e] makes the interval [[y, e)]. *)
Lemma intervals_of_snoc (l : list Z) (y e : Z) :
  last l = Some y -> In (y, e) (intervals_of (l ++ [e])).
Proof.
  induction l as [|a l IH]; [done|]. intros Hl.
  destruct l as [|b l].
  - simpl in Hl. injection Hl as <-. by left.
  - rewrite last_cons_cons in Hl. simpl. right. by apply IH.
Qed.

End AnnotFacts.

(** ** The segments branch of [sparse_to_dense] *)
Module SegFacts.
Import AnnotFacts.

(** [l.iloc[df[col]] = f(df)] with distinct, in-range positions. *)
Lemma iloc_set_rows_spec {A} (l : list A) (rows : list Segment)
    (pos : Segment -> Z) (val : Segment -> A) :
  List.NoDup (map pos rows) -> Forall (fun r => 0 <= pos r < Z.of_nat (length l)) rows ->
  exists l', iloc_set_rows l rows pos val = Ok l' /\ length l' = length l /\
    (forall r i, In r rows -> pos r = Z.of_nat i -> l' !! i = Some (val r)) /\
    (forall i, (forall r, In r rows -> pos r <> Z.of_nat i) -> l' !! i = l !! i).
Proof.
  revert l. induction rows as [|r t IH]; intros l Hnd Hall; simpl.
  - exists l. repeat split; try done.
  - simpl in Hnd. apply NoDup_cons_iff in Hnd as [Hr Hnd]. apply Forall_cons in Hall as [Hp Ht].
    rewrite iloc_set_in by done. simpl.
    destruct (IH (<[Z.to_nat (pos r) := val r]> l)) as (l' & Hl' & Hlen & Hin & Hout);
      [done|by rewrite length_insert|].
    rewrite length_insert in Hlen.
    exists l'. split; [done|]. split; [done|]. split.
    + intros r' i [<-|Hr'] Hpi; [|by apply Hin].
      rewrite Hout.
      * rewrite Hpi, Nat2Z.id. apply list_lookup_insert_eq. lia.
      * intros r'' Hr'' Heq. apply Hr. rewrite Hpi, <- Heq. by apply in_map.
    + intros i Hi. rewrite Hout by (intros r' Hr'; apply Hi; by right).
      apply list_lookup_insert_ne. intros Heq. apply (Hi r); [by left|]. subst i. lia.
Qed.

Lemma ffill_from_zero (last : option Z) (l : list (option Z)) :
  ffill_from last l !! 0%nat = match l !! 0%nat with Some None => Some last | x => x end.
Proof. destruct l as [|[v|] t]; reflexivity. Qed.

(** Forward fill, one position at a time. *)
Lemma ffill_from_succ (last : option Z) (l : list (option Z)) (i : nat) :
  ffill_from last l !! S i =
  match l !! S i with Some None => ffill_from last l !! i | x => x end.
Proof.
  revert last i. induction l as [|a t IH]; intros last i; [done|].
  destruct a as [v|]; simpl.
  - destruct i as [|i].
    + rewrite ffill_from_zero. simpl. by destruct (t !! 0%nat) as [[w|]|].
    + rewrite IH. simpl. by destruct (t !! S i) as [[w|]|].
  - destruct i as [|i].
    + rewrite ffill_from_zero. simpl. by destruct (t !! 0%nat) as [[w|]|].
    + rewrite IH. simpl. by destruct (t !! S i) as [[w|]|].
Qed.

Lemma ffill_from_some (v : Z) (l : list (option Z)) (i : nat) :
  (i < length l)%nat -> exists w, ffill_from (Some v) l !! i = Some (Some w).
Proof.
  revert v i. induction l as [|[a|] t IH]; intros v i Hi; [simpl in Hi; lia| |];
    (destruct i as [|i]; [by eexists|]); simpl in *; apply IH; lia.
Qed.

Lemma length_ffill_from (last : option Z) (l : list (option Z)) :
  length (ffill_from last l) = length l.
Proof. revert last. induction l as [|[a|] t IH]; intros last; simpl; by rewrite ?IH. Qed.

(** [astype("int32")] of a series without [NaN]. *)
Lemma astype_int_spec (l : list (option Z)) :
  (forall i, (i < length l)%nat -> exists v, l !! i = Some (Some v)) ->
  exists l', astype_int l = Ok l' /\ length l' = length l /\
    forall i v, l !! i = Some (Some v) -> l' !! i = Some (wrap32 v).
Proof.
  induction l as [|a t IH]; intros Hall; simpl.
  - exists []. repeat split; try done.
  - destruct (Hall 0%nat ltac:(simpl; lia)) as [v Hv]. simpl in Hv. injection Hv as ->.
    destruct IH as (t' & Ht' & Hlen & Hv).
    { intros i Hi. apply (Hall (S i)). simpl. lia. }
    rewrite Ht'. simpl. exists (wrap32 v :: t'). split; [done|]. split; [simpl; lia|].
    intros [|i] w Hw; simpl in *; [by injection Hw as ->|by apply Hv].
Qed.

Lemma wrap32_small (z : Z) : - 2 ^ 31 <= z < 2 ^ 31 -> wrap32 z = z.
Proof.
  intros H. unfold wrap32. rewrite Z.mod_small by lia. lia.
Qed.

(** *** Valid segment tables *)

Lemma valid_bounds (segs : list Segment) (g : Segment) :
  segments_valid segs -> In g segs ->
  0 <= seg_start g <= seg_end g /\ 0 < seg_label g < 2 ^ 31.
Proof.
  induction segs as [|h t IH]; intros Hv Hg; [done|].
  destruct Hv as (H1 & H2 & H3 & Hv). destruct Hg as [<-|Hg]; [lia|by apply IH].
Qed.

Lemma valid_pairwise (segs : list Segment) (g k : Segment) :
  segments_valid segs -> In g segs -> In k segs ->
  g = k \/ seg_end g < seg_start k \/ seg_end k < seg_start g.
Proof.
  induction segs as [|h t IH]; intros Hv Hg Hk; [done|].
  destruct Hv as (_ & _ & Hf & Hv). rewrite List.Forall_forall in Hf.
  destruct Hg as [<-|Hg], Hk as [<-|Hk]; auto.
Qed.

Lemma valid_nodup_starts (segs : list Segment) :
  segments_valid segs -> List.NoDup (map seg_start segs).
Proof.
  induction segs as [|g t IH]; intros Hv; simpl; [constructor|].
  pose proof Hv as (Hb & _ & Hf & Hv'). constructor; [|by apply IH].
  rewrite List.Forall_forall in Hf. intros Hin. apply in_map_iff in Hin as (h & Hh & Hin).
  specialize (Hf h Hin). lia.
Qed.

Lemma valid_nodup_ends (segs : list Segment) :
  segments_valid segs -> List.NoDup (map seg_end segs).
Proof.
  induction segs as [|g t IH]; intros Hv; simpl; [constructor|].
  pose proof Hv as (Hb & _ & Hf & Hv'). constructor; [|by apply IH].
  rewrite List.Forall_forall in Hf. intros Hin. apply in_map_iff in Hin as (h & Hh & Hin).
  specialize (Hf h Hin). pose proof (valid_bounds t h Hv' Hin). lia.
Qed.

(** The last row's end is the largest end of a valid table. *)
Lemma valid_last_end (segs : list Segment) :
  segs <> [] -> segments_valid segs ->
  exists e, last (map seg_end segs) = Some e /\ Forall (fun g => seg_end g <= e) segs.
Proof.
  induction segs as [|g t IH]; intros Hne Hv; [done|].
  destruct t as [|h t].
  - exists (seg_end g). split; [done|]. repeat constructor. lia.
  - pose proof Hv as (_ & _ & Hf & Hv').
    destruct (IH ltac:(done) Hv') as (e & He & Hall).
    exists e. split; [by rewrite map_cons, map_cons, last_cons_cons|].
    constructor; [|done]. apply Forall_cons in Hf as [Hgh _].
    apply Forall_cons in Hall as [Hh _].
    pose proof (valid_bounds (h :: t) h Hv' ltac:(by left)). lia.
Qed.

Lemma last_started_some (segs : list Segment) (p : Z) (h : Segment) :
  last_started segs p = Some h -> In h segs /\ seg_start h <= p.
Proof.
  induction segs as [|g t IH]; simpl; [done|].
  destruct (last_started t p) as [h'|] eqn:Ht.
  - intros [= <-]. destruct (IH eq_refl). split; [by right|done].
  - destruct (Z.leb_spec (seg_start g) p); [|done]. intros [= <-]. split; [by left|done].
Qed.

Lemma last_started_none (segs : list Segment) (p : Z) :
  (forall h, In h segs -> p < seg_start h) -> last_started segs p = None.
Proof.
  induction segs as [|g t IH]; intros Hall; simpl; [done|].
  rewrite IH by (intros h Hh; apply Hall; by right).
  destruct (Z.leb_spec (seg_start g) p); [|done].
  specialize (Hall g ltac:(by left)). lia.
Qed.

Lemma last_started_none_inv (segs : list Segment) (p : Z) :
  last_started segs p = None -> forall h, In h segs -> p < seg_start h.
Proof.
  induction segs as [|g t IH]; simpl; [done|].
  destruct (last_started t p) eqn:Ht; [done|].
  destruct (Z.leb_spec (seg_start g) p); [done|].
  intros _ h [<-|Hh]; [done|]. by apply IH.
Qed.

(** A position inside a segment's region belongs to that segment. *)
Lemma last_started_region (segs : list Segment) (g : Segment) (p : Z) :
  segments_valid segs -> In g segs -> seg_start g <= p <= seg_end g ->
  last_started segs p = Some g.
Proof.
  induction segs as [|h t IH]; intros Hv Hg Hp; [done|].
  pose proof Hv as (_ & _ & Hf & Hv'). simpl.
  destruct Hg as [<-|Hg].
  - rewrite last_started_none.
    + by rewrite (proj2 (Z.leb_le _ _)) by lia.
    + intros k Hk. rewrite List.Forall_forall in Hf. specialize (Hf k Hk). lia.
  - by rewrite (IH Hv' Hg Hp).
Qed.

Lemma last_started_shift (segs : list Segment) (p : Z) :
  (forall g, In g segs -> seg_start g <> p + 1) ->
  last_started segs (p + 1) = last_started segs p.
Proof.
  induction segs as [|g t IH]; intros Hall; simpl; [done|].
  rewrite IH by (intros h Hh; apply Hall; by right).
  destruct (last_started t p); [done|].
  specialize (Hall g ltac:(by left)).
  destruct (Z.leb_spec (seg_start g) (p + 1)), (Z.leb_spec (seg_start g) p); try done; lia.
Qed.

Lemma existsb_false_forall {A} (f : A -> bool) (l : list A) :
  existsb f l = false -> forall x, In x l -> f x = false.
Proof.
  intros H x Hx. destruct (f x) eqn:Hf; [|done].
  assert (existsb f l = true) by (apply existsb_exists; eauto). congruence.
Qed.

Lemma fill_first_spec (l : list (option Z)) :
  l <> [] ->
  exists l', fill_first l = Ok l' /\ length l' = length l /\
    (forall i, l' !! S i = l !! S i) /\
    l' !! 0%nat = match l !! 0%nat with Some None => Some (Some (-1)) | x => x end.
Proof.
  intros Hne. destruct l as [|[v|] t]; [done| |]; simpl; eexists; repeat split; done.
Qed.

(** Every position is the end of a segment, or the start of one and the
    end of none, or neither. *)
Lemma position_cases (segs : list Segment) (p : Z) :
  (exists k, In k segs /\ seg_end k = p) \/
  ((forall k, In k segs -> seg_end k <> p) /\ exists g, In g segs /\ seg_start g = p) \/
  (forall k, In k segs -> seg_end k <> p /\ seg_start k <> p).
Proof.
  destruct (existsb (fun k => seg_end k =? p) segs) eqn:He.
  - left. apply existsb_exists in He as (k & Hk & Heq). apply Z.eqb_eq in Heq. eauto.
  - pose proof (existsb_false_forall _ _ He) as He'. right.
    destruct (existsb (fun k => seg_start k =? p) segs) eqn:Hs.
    + left. apply existsb_exists in Hs as (g & Hg & Heq). apply Z.eqb_eq in Heq.
      split; [|eauto]. intros k Hk. specialize (He' k Hk). simpl in He'. lia.
    + right. pose proof (existsb_false_forall _ _ Hs) as Hs'. intros k Hk.
      specialize (He' k Hk). specialize (Hs' k Hk). simpl in *. lia.
Qed.

Lemma filled_at_bound (segs : list Segment) (p : Z) :
  segments_valid segs -> - 2 ^ 31 <= filled_at segs p < 2 ^ 31.
Proof.
  intros Hv. unfold filled_at. destruct (last_started segs p) as [h|] eqn:Hh; [|lia].
  destruct (last_started_some _ _ _ Hh) as [Hin _].
  pose proof (valid_bounds _ _ Hv Hin). destruct (_ <? _); lia.
Qed.

(** [sparse_to_dense] of a valid segment table: every position of a
    segment carries its label, every other position -1. *)
Lemma sparse_to_dense_segments_spec_len (segs : list Segment) (length_ : option Z) (e : Z) :
  segs <> [] -> segments_valid segs -> last (map seg_end segs) = Some e ->
  e < default (e + 1) length_ ->
  exists d, sparse_to_dense (Segments segs) length_ = Ok d /\
    length d = Z.to_nat (default (e + 1) length_) /\
    (forall g i, In g segs -> seg_start g <= Z.of_nat i <= seg_end g ->
       d !! i = Some (seg_label g)) /\
    (forall i, (i < length d)%nat ->
       (forall g, In g segs -> ~ (seg_start g <= Z.of_nat i <= seg_end g)) ->
       d !! i = Some (-1)).
Proof.
  intros Hne Hv He Hlz.
  destruct (valid_last_end segs Hne Hv) as (e' & He' & Hall).
  rewrite He in He'. injection He' as <-.
  rewrite List.Forall_forall in Hall.
  assert (He0 : 0 <= e).
  { destruct segs as [|g t]; [done|]. pose proof (valid_bounds _ g Hv ltac:(by left)).
    specialize (Hall g ltac:(by left)). lia. }
  unfold sparse_to_dense. rewrite (iloc_get_last _ _ He). simpl.
  set (Lz := default (e + 1) length_) in *.
  set (L := Z.to_nat Lz).
  assert (HinL : forall g, In g segs -> 0 <= seg_start g /\ seg_end g < Z.of_nat L).
  { intros g Hg. pose proof (valid_bounds _ g Hv Hg). specialize (Hall g Hg).
    unfold L. lia. }
  rewrite (proj2 (Z.leb_gt Lz e)) by lia.
  unfold np_full. rewrite (proj2 (Z.ltb_ge Lz 0)) by lia. simpl.
  fold L.
  destruct (iloc_set_rows_spec (replicate L None) segs seg_start
              (fun r => Some (wrap32 (seg_label r))))
    as (y1 & Hy1 & Hlen1 & Hin1 & Hout1).
  { by apply valid_nodup_starts. }
  { apply List.Forall_forall. intros g Hg. rewrite length_replicate.
    pose proof (valid_bounds _ g Hv Hg). specialize (HinL g Hg). lia. }
  rewrite Hy1. simpl. rewrite length_replicate in Hlen1.
  destruct (iloc_set_rows_spec y1 segs seg_end
              (fun r => Some (wrap32 (- wrap32 (seg_label r)))))
    as (y2 & Hy2 & Hlen2 & Hin2 & Hout2).
  { by apply valid_nodup_ends. }
  { apply List.Forall_forall. intros g Hg. rewrite Hlen1.
    pose proof (valid_bounds _ g Hv Hg). specialize (HinL g Hg). lia. }
  rewrite Hy2. simpl. rewrite Hlen1 in Hlen2.
  (* the markers left by the two assignments *)
  assert (M1 : forall g i, In g segs -> seg_end g = Z.of_nat i ->
            y2 !! i = Some (Some (- seg_label g))).
  { intros g i Hg Hi. rewrite (Hin2 g i Hg Hi). pose proof (valid_bounds _ g Hv Hg).
    rewrite (wrap32_small (seg_label g)), wrap32_small by lia. done. }
  assert (M2 : forall g i, In g segs -> seg_start g = Z.of_nat i ->
            (forall k, In k segs -> seg_end k <> Z.of_nat i) ->
            y2 !! i = Some (Some (seg_label g))).
  { intros g i Hg Hi Hk. rewrite (Hout2 i Hk), (Hin1 g i Hg Hi).
    pose proof (valid_bounds _ g Hv Hg). rewrite wrap32_small by lia. done. }
  assert (M3 : forall i, (i < L)%nat ->
            (forall k, In k segs -> seg_end k <> Z.of_nat i /\ seg_start k <> Z.of_nat i) ->
            y2 !! i = Some None).
  { intros i Hi Hk. rewrite Hout2 by (intros k Hk'; apply (Hk k Hk')).
    rewrite Hout1 by (intros k Hk'; apply (Hk k Hk')).
    apply lookup_replicate. split; [done|lia]. }
  destruct (fill_first_spec y2) as (y3 & Hy3 & Hlen3 & Hs3 & H03).
  { intros ->. simpl in Hlen2. unfold L in Hlen2. lia. }
  rewrite Hy3. simpl.
  (* the forward fill, position by position *)
  assert (HF : forall n, (n < L)%nat ->
            ffill y3 !! n = Some (Some (filled_at segs (Z.of_nat n)))).
  { induction n as [|m IHm]; intros Hn.
    - unfold ffill. rewrite ffill_from_zero, H03. change (Z.of_nat 0) with 0.
      destruct (position_cases segs 0) as [(k & Hk & Hke)|[(Hk & g & Hg & Hgs)|Hk]].
      + rewrite (M1 k 0%nat Hk Hke). pose proof (valid_bounds _ k Hv Hk).
        unfold filled_at. rewrite (last_started_region segs k 0 Hv Hk) by lia.
        rewrite (proj2 (Z.ltb_ge _ _)) by lia. done.
      + rewrite (M2 g 0%nat Hg Hgs Hk). pose proof (valid_bounds _ g Hv Hg).
        specialize (Hk g Hg). unfold filled_at.
        rewrite (last_started_region segs g 0 Hv Hg) by lia.
        rewrite (proj2 (Z.ltb_lt _ _)) by lia. done.
      + rewrite (M3 0%nat Hn Hk). unfold filled_at. rewrite last_started_none; [done|].
        intros h Hh. pose proof (valid_bounds _ h Hv Hh). specialize (Hk h Hh). lia.
    - unfold ffill. rewrite ffill_from_succ, Hs3.
      replace (Z.of_nat (S m)) with (Z.of_nat m + 1) by lia.
      destruct (position_cases segs (Z.of_nat m + 1))
        as [(k & Hk & Hke)|[(Hk & g & Hg & Hgs)|Hk]].
      + rewrite (M1 k (S m) Hk ltac:(lia)). pose proof (valid_bounds _ k Hv Hk).
        unfold filled_at. rewrite (last_started_region segs k _ Hv Hk) by lia.
        rewrite (proj2 (Z.ltb_ge _ _)) by lia. done.
      + rewrite (M2 g (S m) Hg ltac:(lia)
                   ltac:(intros k' Hk'; specialize (Hk k' Hk'); lia)).
        pose proof (valid_bounds _ g Hv Hg). specialize (Hk g Hg). unfold filled_at.
        rewrite (last_started_region segs g _ Hv Hg) by lia.
        rewrite (proj2 (Z.ltb_lt _ _)) by lia. done.
      + rewrite (M3 (S m) Hn ltac:(intros k' Hk'; specialize (Hk k' Hk'); lia)).
        unfold ffill in IHm. rewrite IHm by lia. unfold filled_at.
        rewrite last_started_shift by (intros g Hg; apply (Hk g Hg)).
        destruct (last_started segs (Z.of_nat m)) as [h|] eqn:Hh; [|done].
        destruct (last_started_some _ _ _ Hh) as [Hhin _].
        specialize (Hk h Hhin) as [Hke _].
        destruct (Z.ltb_spec (Z.of_nat m + 1) (seg_end h)),
          (Z.ltb_spec (Z.of_nat m) (seg_end h)); try done; lia. }
  destruct (astype_int_spec (ffill y3)) as (y4 & Hy4 & Hlen4 & Hv4).
  { intros n Hn. unfold ffill in Hn. rewrite length_ffill_from in Hn.
    eexists. apply HF. lia. }
  rewrite Hy4. simpl.
  assert (Hlen4' : length y4 = L)
    by (rewrite Hlen4; unfold ffill; rewrite length_ffill_from; lia).
  assert (HF4 : forall n, (n < L)%nat -> y4 !! n = Some (filled_at segs (Z.of_nat n))).
  { intros n Hn. rewrite (Hv4 n _ (HF n Hn)).
    by rewrite wrap32_small by (apply filled_at_bound, Hv). }
  destruct (iloc_set_rows_spec y4 segs seg_end (fun r => wrap32 (seg_label r)))
    as (y5 & Hy5 & Hlen5 & Hin5 & Hout5).
  { by apply valid_nodup_ends. }
  { apply List.Forall_forall. intros g Hg. rewrite Hlen4'.
    pose proof (valid_bounds _ g Hv Hg). specialize (HinL g Hg). lia. }
  rewrite Hy5. simpl.
  exists (clamp_negative y5). split; [done|].
  split; [unfold clamp_negative; rewrite length_map; lia|].
  split.
  - intros g i Hg Hi. unfold clamp_negative. rewrite lookup_map.
    pose proof (valid_bounds _ g Hv Hg).
    destruct (Z.eq_dec (seg_end g) (Z.of_nat i)) as [Heq|Hne'].
    + rewrite (Hin5 g i Hg Heq). simpl. rewrite wrap32_small by lia.
      rewrite (proj2 (Z.ltb_ge _ _)) by lia. done.
    + rewrite Hout5.
      2:{ intros k Hk Hke. pose proof (valid_bounds _ k Hv Hk).
          destruct (valid_pairwise segs g k Hv Hg Hk) as [<-|[Hgk|Hkg]]; lia. }
      rewrite HF4 by (specialize (HinL g Hg); lia). simpl. unfold filled_at.
      rewrite (last_started_region segs g _ Hv Hg Hi).
      rewrite (proj2 (Z.ltb_lt (Z.of_nat i) (seg_end g))) by lia.
      rewrite (proj2 (Z.ltb_ge (seg_label g) 0)) by lia. done.
  - intros i Hi Hout. unfold clamp_negative in *. rewrite length_map in Hi.
    rewrite lookup_map. rewrite Hout5.
    2:{ intros k Hk Hke. apply (Hout k Hk). pose proof (valid_bounds _ k Hv Hk). lia. }
    rewrite HF4 by lia. simpl. unfold filled_at.
    destruct (last_started segs (Z.of_nat i)) as [h|] eqn:Hh; [|done].
    destruct (last_started_some _ _ _ Hh) as [Hhin Hhs].
    pose proof (valid_bounds _ h Hv Hhin).
    assert (seg_end h < Z.of_nat i) by (pose proof (Hout h Hhin); lia).
    rewrite (proj2 (Z.ltb_ge (Z.of_nat i) (seg_end h))) by lia.
    rewrite (proj2 (Z.ltb_lt _ 0)) by lia. done.
Qed.

(** With the default length [max(seg_end) + 1]. *)
Lemma sparse_to_dense_segments_spec (segs : list Segment) :
  segs <> [] -> segments_valid segs ->
  exists e d, last (map seg_end segs) = Some e /\
    sparse_to_dense (Segments segs) None = Ok d /\
    length d = Z.to_nat (e + 1) /\
    (forall g i, In g segs -> seg_start g <= Z.of_nat i <= seg_end g ->
       d !! i = Some (seg_label g)) /\
    (forall i, (i < length d)%nat ->
       (forall g, In g segs -> ~ (seg_start g <= Z.of_nat i <= seg_end g)) ->
       d !! i = Some (-1)).
Proof.
  intros Hne Hv.
  destruct (valid_last_end segs Hne Hv) as (e & He & _).
  destruct (sparse_to_dense_segments_spec_len segs None e Hne Hv He ltac:(simpl; lia))
    as (d & Hd & Hrest).
  exists e, d. by split.
Qed.

End SegFacts.

(** ** The segments branch of [dense_to_sparse] *)
Module DenseFacts.
Import AnnotFacts SegFacts.

Lemma ne0_some (v : Z) : ne0 (Some v) = true <-> v <> 0.
Proof. unfold ne0. rewrite negb_true_iff, Z.eqb_neq. done. Qed.

(** [y.diff() != 0]: position [j] starts a run. *)
Lemma diff_prev_mask (d : list Z) (j : nat) :
  map ne0 (diff_prev d) !! j = Some true <->
  (j < length d)%nat /\ (j = 0%nat \/ exists a b, d !! (j - 1)%nat = Some a /\
                                              d !! j = Some b /\ a <> b).
Proof.
  destruct d as [|x t]; [simpl; split; [done|lia]|].
  cbn [diff_prev]. rewrite AnnotFacts.lookup_map.
  destruct j as [|j].
  { simpl. split; [intros _; split; [lia|by left]|by intros]. }
  rewrite lookup_cons_ne_0 by lia. simpl pred. rewrite lookup_zip_with.
  destruct ((x :: t) !! j) as [a|] eqn:Ha; simpl.
  - destruct (t !! j) as [b|] eqn:Hb; simpl.
    + rewrite Nat.sub_0_r. split.
      * intros [= H]. apply ne0_some in H. pose proof (lookup_lt_Some _ _ _ Hb).
        split; [simpl; lia|]. right. exists a, b. repeat split; try done; lia.
      * intros [_ [Hj|(a' & b' & Ha' & Hb' & Hab)]]; [lia|].
        rewrite Ha in Ha'.  injection Ha' as <-. injection Hb' as <-.
        f_equal. apply ne0_some. lia.
    + split; [done|]. intros [Hj _]. apply lookup_ge_None in Hb. lia.
  - split; [done|]. intros [Hj _]. apply lookup_ge_None in Ha. simpl in Ha. lia.
Qed.

(** [y.diff(-1) != 0]: position [j] ends a run. *)
Lemma diff_next_mask (d : list Z) (j : nat) :
  map ne0 (diff_next d) !! j = Some true <->
  (j < length d)%nat /\ (S j = length d \/ exists a b, d !! j = Some a /\
                                              d !! S j = Some b /\ a <> b).
Proof.
  destruct d as [|x t]; [simpl; split; [done|lia]|].
  cbn [diff_next]. rewrite map_app.
  assert (Hl : length (map ne0 (zip_with (fun a b => Some (a - b)) (x :: t) t)) = length t).
  { rewrite length_map, length_zip_with. cbn [length]. lia. }
  destruct (decide (j < length t)%nat) as [Hj|Hj].
  - rewrite lookup_app_l by (rewrite Hl; lia).
    rewrite AnnotFacts.lookup_map, lookup_zip_with.
    destruct (lookup_lt_is_Some_2 (x :: t) j ltac:(simpl; lia)) as [a Ha].
    destruct (lookup_lt_is_Some_2 t j Hj) as [b Hb].
    rewrite Ha, Hb. simpl. split.
    + intros [= H]. apply ne0_some in H. split; [lia|]. right. exists a, b. repeat split; try done; lia.
    + intros [_ [Hj'|(a' & b' & Ha' & Hb' & Hab)]]; [lia|].
      simpl in Hb'. rewrite ?Ha in Ha'. rewrite ?Hb in Hb'.
      injection Ha' as <-. injection Hb' as <-. f_equal. apply ne0_some. lia.
  - rewrite lookup_app_r by (rewrite Hl; lia). rewrite Hl.
    destruct (decide (j = length t)) as [->|Hj'].
    + rewrite Nat.sub_diag. simpl. split; [intros _; split; [lia|by left]|by intros].
    + rewrite lookup_ge_None_2 by (simpl; lia). split; [done|]. intros [Hl' _]. simpl in Hl'. lia.
Qed.

(** The starts of the runs of [d]: [np.where(y.diff() != 0)[0]]. *)
Lemma starts_spec (d : list Z) (z : Z) :
  In z (np_where (map ne0 (diff_prev d))) <->
  0 <= z < Z.of_nat (length d) /\
  (z = 0 \/ exists a b, d !! Z.to_nat (z - 1) = Some a /\ d !! Z.to_nat z = Some b /\ a <> b).
Proof.
  unfold np_where. rewrite where_from_spec. split.
  - intros (i & Hi & ->). apply diff_prev_mask in Hi as [Hlt [H0|(a & b & Ha & Hb & Hab)]].
    + split; lia.
    + split; [lia|]. right. exists a, b.
      replace (Z.to_nat (0 + Z.of_nat i - 1)) with (i - 1)%nat by lia.
      replace (Z.to_nat (0 + Z.of_nat i)) with i by lia. done.
  - intros [Hz Hc]. exists (Z.to_nat z). split; [|lia].
    apply diff_prev_mask. split; [lia|].
    destruct Hc as [->|(a & b & Ha & Hb & Hab)]; [by left|].
    right. exists a, b. replace (Z.to_nat z - 1)%nat with (Z.to_nat (z - 1)) by lia. done.
Qed.

(** The ends of the runs of [d]: [np.where(y.diff(-1) != 0)[0]]. *)
Lemma ends_spec (d : list Z) (z : Z) :
  In z (np_where (map ne0 (diff_next d))) <->
  0 <= z < Z.of_nat (length d) /\
  (z = Z.of_nat (length d) - 1 \/
   exists a b, d !! Z.to_nat z = Some a /\ d !! Z.to_nat (z + 1) = Some b /\ a <> b).
Proof.
  unfold np_where. rewrite where_from_spec. split.
  - intros (i & Hi & ->). apply diff_next_mask in Hi as [Hlt [H0|(a & b & Ha & Hb & Hab)]].
    + split; lia.
    + split; [lia|]. right. exists a, b.
      replace (Z.to_nat (0 + Z.of_nat i + 1)) with (S i) by lia.
      replace (Z.to_nat (0 + Z.of_nat i)) with i by lia. done.
  - intros [Hz Hc]. exists (Z.to_nat z). split; [|lia].
    apply diff_next_mask. split; [lia|].
    destruct Hc as [->|(a & b & Ha & Hb & Hab)]; [left; lia|].
    right. exists a, b. replace (S (Z.to_nat z)) with (Z.to_nat (z + 1)) by lia. done.
Qed.

Lemma ssorted_snoc (l : list Z) (n : Z) :
  StronglySorted Z.lt l -> (forall z, In z l -> z < n) -> StronglySorted Z.lt (l ++ [n]).
Proof.
  induction 1 as [|x l Hs IH Hf]; intros Hlt; simpl.
  - repeat constructor.
  - constructor; [apply IH; intros z Hz; apply Hlt; by right|].
    apply List.Forall_app. split; [done|]. constructor; [|constructor].
    apply Hlt. by left.
Qed.

Lemma ssorted_map_succ (l : list Z) :
  StronglySorted Z.lt l -> StronglySorted Z.lt (map Z.succ l).
Proof.
  induction 1 as [|x l Hs IH Hf]; simpl; constructor; [done|].
  apply List.Forall_map. eapply List.Forall_impl; [|exact Hf]. simpl. lia.
Qed.

Lemma ssorted_head_le (x z : Z) (l : list Z) :
  StronglySorted Z.lt (x :: l) -> In z (x :: l) -> x <= z.
Proof.
  intros Hs [<-|Hz]; [lia|]. apply StronglySorted_inv in Hs as [_ Hf].
  rewrite List.Forall_forall in Hf. specialize (Hf z Hz). lia.
Qed.

Lemma ssorted_snoc_le (l : list Z) (n z : Z) :
  StronglySorted Z.lt (l ++ [n]) -> In z (l ++ [n]) -> z <= n.
Proof.
  induction l as [|x l IH]; simpl; intros Hs Hz.
  - destruct Hz as [<-|[]]. lia.
  - apply StronglySorted_inv in Hs as [Hs Hf]. destruct Hz as [<-|Hz]; [|by apply IH].
    rewrite List.Forall_forall in Hf. assert (Hn : In n (l ++ [n])) by (apply in_or_app; right; by left).
    specialize (Hf n Hn). lia.
Qed.

(** Every run ends right before the next one starts, the last one at the
    end of the series. *)
Lemma starts_ends (d : list Z) :
  d <> [] ->
  np_where (map ne0 (diff_prev d)) ++ [Z.of_nat (length d)] =
  0 :: map Z.succ (np_where (map ne0 (diff_next d))).
Proof.
  intros Hne. assert (Hn : (0 < length d)%nat) by (destruct d; [done|simpl; lia]).
  apply strictly_sorted_ext.
  - apply ssorted_snoc; [apply where_from_sorted|].
    intros z Hz. apply starts_spec in Hz. lia.
  - constructor; [apply ssorted_map_succ, where_from_sorted|].
    apply List.Forall_forall. intros z Hz. apply in_map_iff in Hz as (y & <- & Hy).
    apply ends_spec in Hy. lia.
  - intros z. rewrite in_app_iff. simpl. rewrite in_map_iff. split.
    + intros [Hz|[<-|[]]].
      * apply starts_spec in Hz as [Hz [->|(a & b & Ha & Hb & Hab)]]; [by left|].
        assert (Hz0 : 0 < z).
        { destruct (Z.eq_dec z 0) as [->|]; [exfalso|lia].
          change (Z.to_nat (0 - 1)) with 0%nat in Ha. change (Z.to_nat 0) with 0%nat in Hb.
          rewrite Ha in Hb. injection Hb. lia. }
        right. exists (z - 1). split; [lia|]. apply ends_spec. split; [|right].
        { apply lookup_lt_Some in Ha. lia. }
        exists a, b. replace (z - 1 + 1) with z by lia. done.
      * right. exists (Z.of_nat (length d) - 1). split; [lia|]. apply ends_spec. split; [lia|by left].
    + intros [<-|(y & <- & Hy)].
      * left. apply starts_spec. split; [lia|by left].
      * apply ends_spec in Hy as [Hy [->|(a & b & Ha & Hb & Hab)]]; [right; left; lia|].
        left. apply starts_spec. apply lookup_lt_Some in Hb as Hlt. split; [lia|].
        right. exists a, b. replace (Z.succ y - 1) with y by lia.
        replace (Z.to_nat (Z.succ y)) with (Z.to_nat (y + 1)) by lia. done.
Qed.

(** [y_dense.iloc[segment_start_indexes]] with every position in range. *)
Lemma iloc_get_many_in (d ps : list Z) :
  Forall (fun p => 0 <= p < Z.of_nat (length d)) ps ->
  exists ls, iloc_get_many d ps = Ok ls /\ Forall2 (fun l p => d !! Z.to_nat p = Some l) ls ps.
Proof.
  induction ps as [|p t IH]; intros Hall; simpl; [by exists []|].
  apply Forall_cons in Hall as [Hp Ht]. destruct (IH Ht) as (ls & Hls & Hf).
  unfold iloc_get. rewrite py_pos_in by done. simpl.
  destruct (lookup_lt_is_Some_2 d (Z.to_nat p)) as [v Hv]; [lia|].
  rewrite Hv. simpl. rewrite Hls. simpl. exists (v :: ls). split; [done|by constructor].
Qed.

(** The data frame built from the starts, the ends and the labels read at
    the starts: one row per run of [[k, n)]. *)
Lemma make_segments_runs (d : list Z) (n : Z) (E : list Z) :
  forall (S ls : list Z) (k : Z),
  S ++ [n] = k :: map Z.succ E -> StronglySorted Z.lt (S ++ [n]) ->
  Forall2 (fun l s => d !! Z.to_nat s = Some l) ls S ->
  exists segs, make_segments ls S E = Ok segs /\
    (forall g, In g segs -> k <= seg_start g <= seg_end g /\ seg_end g < n /\
       d !! Z.to_nat (seg_start g) = Some (seg_label g) /\
       In (seg_start g) S /\ In (seg_end g) E /\
       forall z, In z S -> ~ (seg_start g < z <= seg_end g)) /\
    (forall i, k <= i < n -> exists g, In g segs /\ seg_start g <= i <= seg_end g) /\
    StronglySorted (fun g h => seg_end g < seg_start h) segs.
Proof.
  induction E as [|e E IH]; intros S ls k Heq Hs Hf.
  - destruct S as [|s S]; simpl in Heq.
    + injection Heq as ->. inversion Hf; subst. exists []. simpl.
      split; [done|]. split; [done|]. split; [lia|constructor].
    + injection Heq as -> Heq. destruct S; discriminate.
  - destruct S as [|s S]; simpl in Heq; [discriminate|].
    injection Heq as -> Heq. simpl in Hs.
    apply Forall2_cons_inv_r in Hf as (l & ls' & Hl & Hf & ->).
    pose proof Hs as Hs'. apply StronglySorted_inv in Hs' as [HsS Hk].
    rewrite Heq in Hk. apply Forall_cons in Hk as [Hke _].
    assert (Hen : Z.succ e <= n).
    { apply (ssorted_snoc_le S n); [done|]. rewrite Heq. by left. }
    destruct (IH S ls' (Z.succ e) Heq HsS Hf) as (segs & Hm & Ha & Hb & Hc).
    simpl. rewrite Hm. simpl. exists (mkSegment l k e :: segs). split; [done|].
    assert (HS : forall z, In z S -> Z.succ e <= z).
    { intros z Hz. rewrite Heq in HsS. apply (ssorted_head_le _ _ _ HsS).
      rewrite <- Heq. apply in_or_app. by left. }
    split; [|split].
    + intros g [<-|Hg]; simpl.
      * split; [lia|]. split; [lia|]. split; [done|]. split; [by left|]. split; [by left|].
        intros z [<-|Hz]; [lia|]. specialize (HS z Hz). lia.
      * destruct (Ha g Hg) as (H1 & H2 & H3 & H4 & H5 & H6).
        split; [lia|]. split; [done|]. split; [done|]. split; [by right|]. split; [by right|].
        intros z [<-|Hz]; [lia|]. by apply H6.
    + intros i Hi. destruct (Z.le_gt_cases i e) as [Hie|Hie].
      * exists (mkSegment l k e). split; [by left|]. simpl. lia.
      * destruct (Hb i ltac:(lia)) as (g & Hg & Hgi). exists g. split; [by right|done].
    + constructor; [done|]. apply List.Forall_forall. intros g Hg.
      destruct (Ha g Hg) as (H1 & _). simpl. lia.
Qed.

(** Without a 0 in the series, [dense_to_sparse] cuts it into its maximal
    constant runs and drops those labelled -1. *)
Lemma dense_to_sparse_runs (d : list Z) :
  d <> [] -> (forall v, In v d -> v <> 0) ->
  exists segs,
    dense_to_sparse d = Ok (Segments (filter (fun r => negb (seg_label r =? -1)) segs)) /\
    (forall g, In g segs ->
       0 <= seg_start g <= seg_end g /\ seg_end g < Z.of_nat (length d) /\
       (forall i, seg_start g <= i <= seg_end g -> d !! Z.to_nat i = Some (seg_label g)) /\
       (seg_start g = 0 \/
        exists a, d !! Z.to_nat (seg_start g - 1) = Some a /\ a <> seg_label g) /\
       (seg_end g = Z.of_nat (length d) - 1 \/
        exists b, d !! Z.to_nat (seg_end g + 1) = Some b /\ b <> seg_label g)) /\
    (forall i, 0 <= i < Z.of_nat (length d) ->
       exists g, In g segs /\ seg_start g <= i <= seg_end g) /\
    StronglySorted (fun g h => seg_end g < seg_start h) segs.
Proof.
  intros Hne H0. unfold dense_to_sparse.
  destruct (existsb (fun v => v =? 0) d) eqn:Hz.
  { exfalso. apply existsb_exists in Hz as (v & Hv & Hv0). apply Z.eqb_eq in Hv0.
    by apply (H0 v). }
  set (S := np_where (map ne0 (diff_prev d))).
  set (E := np_where (map ne0 (diff_next d))).
  pose proof (starts_ends d Hne) as Heq. fold S E in Heq.
  assert (HsS : StronglySorted Z.lt (S ++ [Z.of_nat (length d)])).
  { apply ssorted_snoc; [apply where_from_sorted|]. intros z Hz'. apply starts_spec in Hz'. lia. }
  destruct (iloc_get_many_in d S) as (ls & Hls & Hf).
  { apply List.Forall_forall. intros z Hz'. apply starts_spec in Hz'. lia. }
  destruct (make_segments_runs d (Z.of_nat (length d)) E S ls 0 Heq HsS Hf)
    as (segs & Hm & Ha & Hb & Hc).
  simpl. rewrite Hls. simpl. rewrite Hm. simpl.
  exists segs. split; [done|]. split; [|done].
  intros g Hg. destruct (Ha g Hg) as (H1 & H2 & H3 & H4 & H5 & H6).
  assert (Hconst : forall m i, Z.to_nat (i - seg_start g) = m ->
            seg_start g <= i <= seg_end g -> d !! Z.to_nat i = Some (seg_label g)).
  { (* no run starts strictly inside [g] *)
    induction m as [|m IHm]; intros i Hm' Hi.
    - by replace i with (seg_start g) by lia.
    - assert (Hprev : d !! Z.to_nat (i - 1) = Some (seg_label g)) by (apply IHm; lia).
      destruct (lookup_lt_is_Some_2 d (Z.to_nat i)) as [b Hb']; [lia|].
      destruct (Z.eq_dec b (seg_label g)) as [<-|Hne']; [done|].
      exfalso. apply (H6 i); [|lia]. apply starts_spec. split; [lia|].
      right. exists (seg_label g), b. done. }
  split; [lia|]. split; [done|]. split; [|split].
  - intros i Hi. by apply (Hconst (Z.to_nat (i - seg_start g))).
  - apply starts_spec in H4 as [_ [Hs0|(a & b & Ha' & Hb' & Hab)]]; [by left|].
    right. exists a. rewrite H3 in Hb'. injection Hb' as <-. done.
  - apply ends_spec in H5 as [_ [He|(a & b & Ha' & Hb' & Hab)]]; [by left|].
    right. exists b. split; [done|].
    rewrite (Hconst (Z.to_nat (seg_end g - seg_start g))) in Ha' by lia.
    injection Ha' as <-. done.
Qed.

Lemma ssorted_filter {A} (R : A -> A -> Prop) (P : A -> Prop) `{!forall x, Decision (P x)}
    (l : list A) :
  StronglySorted R l -> StronglySorted R (filter P l).
Proof.
  induction 1 as [|x l Hs IH Hf]; [constructor|]. rewrite filter_cons.
  destruct (decide (P x)); [|done]. constructor; [done|].
  rewrite List.Forall_forall in Hf |- *. intros y Hy.
  apply list_elem_of_In, list_elem_of_filter in Hy as [_ Hy].
  apply Hf. by apply list_elem_of_In.
Qed.

(** A valid table is one ordered by position, each row well formed. *)
Lemma valid_iff_sorted (segs : list Segment) :
  segments_valid segs <->
  StronglySorted (fun g h => seg_end g < seg_start h) segs /\
  (forall g, In g segs -> 0 <= seg_start g <= seg_end g /\ 0 < seg_label g < 2 ^ 31).
Proof.
  induction segs as [|g t IH]; simpl.
  - split; [intros _; split; [constructor|done]|done].
  - rewrite IH. split.
    + intros (Hb & Hl & Hf & Hs & Hall). split; [by constructor|].
      intros h [<-|Hh]; [done|by apply Hall].
    + intros [Hs Hall]. apply StronglySorted_inv in Hs as [Hs Hf].
      split; [by apply Hall; left|]. split; [by apply Hall; left|]. split; [done|].
      split; [done|]. intros h Hh. apply Hall. by right.
Qed.

(** Two tables ordered by position with the same rows are equal. *)
Lemma segments_sorted_ext (l1 l2 : list Segment) :
  (forall g, In g l1 -> seg_start g <= seg_end g) ->
  StronglySorted (fun g h => seg_end g < seg_start h) l1 ->
  StronglySorted (fun g h => seg_end g < seg_start h) l2 ->
  (forall g, In g l1 <-> In g l2) -> l1 = l2.
Proof.
  revert l2. induction l1 as [|x t IH]; intros l2 Hb H1 H2 Hiff.
  - destruct l2 as [|y t2]; [done|]. exfalso. apply (Hiff y). by left.
  - destruct l2 as [|y t2]; [exfalso; apply (Hiff x); by left|].
    apply StronglySorted_inv in H1 as [H1 F1]. apply StronglySorted_inv in H2 as [H2 F2].
    rewrite List.Forall_forall in F1, F2.
    assert (Hbx := Hb x ltac:(by left)).
    assert (x = y) as <-.
    { destruct (proj1 (Hiff x) (or_introl eq_refl)) as [|Hx]; [done|].
      destruct (proj2 (Hiff y) (or_introl eq_refl)) as [|Hy]; [done|].
      specialize (F1 y Hy). specialize (F2 x Hx). specialize (Hb y (or_intror Hy)). lia. }
    f_equal. apply IH; [intros g Hg; apply Hb; by right|done|done|]. intros z. split.
    + intros Hz. destruct (proj1 (Hiff z) (or_intror Hz)) as [<-|]; [|done].
      specialize (F1 x Hz). lia.
    + intros Hz. destruct (proj2 (Hiff z) (or_intror Hz)) as [<-|]; [|done].
      specialize (F2 x Hz). lia.
Qed.

Lemma lookup_In_Z (d : list Z) (i : Z) (v : Z) : d !! Z.to_nat i = Some v -> In v d.
Proof. intros H. apply list_elem_of_In. by apply (list_elem_of_lookup_2 _ (Z.to_nat i)). Qed.

Lemma in_filter_label (segs : list Segment) (g : Segment) :
  In g (filter (fun r => negb (seg_label r =? -1)) segs) <-> In g segs /\ seg_label g <> -1.
Proof.
  rewrite <- list_elem_of_In, list_elem_of_filter, list_elem_of_In.
  unfold Is_true. destruct (Z.eqb_spec (seg_label g) (-1)); simpl; intuition.
Qed.

Lemma covered_dec (segs : list Segment) (p : Z) :
  (exists g, In g segs /\ seg_start g <= p <= seg_end g) \/
  (forall g, In g segs -> ~ (seg_start g <= p <= seg_end g)).
Proof.
  destruct (existsb (fun g => (seg_start g <=? p) && (p <=? seg_end g)) segs) eqn:Hc.
  - left. apply existsb_exists in Hc as (g & Hg & Hgp).
    apply andb_true_iff in Hgp as [H1 H2]. apply Z.leb_le in H1, H2. eauto.
  - right. intros g Hg Hgp. pose proof (existsb_false_forall _ _ Hc g Hg) as Hf.
    simpl in Hf. apply andb_false_iff in Hf as [Hf|Hf]; apply Z.leb_gt in Hf; lia.
Qed.

(** [diff.iat[0] = 0]: position 0 leaves the positions where the series
    changes. *)
Lemma set_first_where (l : list (option Z)) (z : Z) :
  In z (np_where (map ne0 (Some 0 :: l))) <->
  In z (np_where (map ne0 (None :: l))) /\ z <> 0.
Proof.
  unfold np_where. simpl. split.
  - intros Hz. split; [by right|]. apply where_from_spec in Hz as (i & _ & ->). lia.
  - intros [[<-|Hz] Hz0]; done.
Qed.

(** [sparse_to_dense] of a valid table with the default length, read at
    integer positions. *)
Lemma dense_of_segments (segs : list Segment) :
  segs <> [] -> segments_valid segs ->
  exists e d, last (map seg_end segs) = Some e /\
    sparse_to_dense (Segments segs) None = Ok d /\
    0 <= e /\ Z.of_nat (length d) = e + 1 /\
    (forall g, In g segs -> seg_end g <= e) /\
    (forall g p, In g segs -> seg_start g <= p <= seg_end g ->
       d !! Z.to_nat p = Some (seg_label g)) /\
    (forall p, 0 <= p <= e ->
       (forall g, In g segs -> ~ (seg_start g <= p <= seg_end g)) ->
       d !! Z.to_nat p = Some (-1)).
Proof.
  intros Hne Hv.
  destruct (valid_last_end segs Hne Hv) as (e & He & Hall).
  rewrite List.Forall_forall in Hall.
  destruct (sparse_to_dense_segments_spec_len segs None e Hne Hv He ltac:(simpl; lia))
    as (d & Hd & Hlen & Hreg & Hout).
  simpl in Hlen.
  assert (He0 : 0 <= e).
  { destruct segs as [|g0 t]; [done|].
    pose proof (valid_bounds _ g0 Hv ltac:(by left)). specialize (Hall g0 ltac:(by left)). lia. }
  exists e, d. split; [done|]. split; [done|]. split; [done|]. split; [lia|]. split; [done|].
  split.
  - intros g p Hg Hp. pose proof (valid_bounds _ g Hv Hg).
    apply Hreg; [done|]. rewrite Z2Nat.id; lia.
  - intros p Hp Hu. apply Hout; [lia|]. rewrite Z2Nat.id by lia. done.
Qed.

(** [l.iloc[ps] = x] raises [IndexError] when a position lies at or beyond
    the end. *)
Lemma iloc_set_all_oob {A} (l : list A) (ps : list Z) (x : A) :
  (exists y, In y ps /\ Z.of_nat (length l) <= y) -> iloc_set_all l ps x = Err IndexError.
Proof.
  revert l. induction ps as [|p t IH]; intros l (y & Hy & Hly); [done|]. simpl.
  unfold iloc_set, py_pos.
  destruct ((0 <=? p) && (p <? Z.of_nat (length l))) eqn:Hin.
  - apply andb_true_iff in Hin as [_ Hin]. apply Z.ltb_lt in Hin. simpl.
    destruct Hy as [<-|Hy]; [lia|]. apply IH. exists y. split; [done|].
    rewrite length_insert. done.
  - destruct Hy as [<-|Hy].
    + rewrite (proj2 (Z.ltb_ge p 0)) by lia. rewrite andb_false_r. done.
    + destruct ((- Z.of_nat (length l) <=? p) && (p <? 0)) eqn:Hneg; [|done].
      simpl. apply IH. exists y. split; [done|]. rewrite length_insert. done.
Qed.

End DenseFacts.

(** ** [change_points_to_segments] *)
Module ChangePointFacts.
Import AnnotFacts.

Lemma py_range_cons (a b : Z) : a < b -> py_range a b = a :: py_range (a + 1) b.
Proof.
  intros Hab. unfold py_range.
  replace (Z.to_nat (b - a)) with (S (Z.to_nat (b - (a + 1)))) by lia.
  simpl. f_equal; [lia|]. rewrite <- seq_shift, map_map.
  apply map_ext. intros k. lia.
Qed.

(** The breaks [a, l..., e] give the intervals [(a, l_0), (l_0, l_1), ...,
    (l_last, e)]. *)
Lemma intervals_of_combine (a : Z) (l : list Z) (e : Z) :
  intervals_of (a :: l ++ [e]) = combine (a :: l) (l ++ [e]).
Proof.
  revert a. induction l as [|b l IH]; intros a; [done|].
  cbn [app intervals_of combine]. f_equal. apply IH.
Qed.

Lemma label_intervals_bounds (f n : Z) (L R : list Z) :
  length L = length R ->
  map (fun v => v.1.1) (label_intervals f n (combine L R)) = L /\
  map (fun v => v.1.2) (label_intervals f n (combine L R)) = R.
Proof.
  revert n R. induction L as [|l L IH]; intros n [|r R] Hlen; simpl in *; try done.
  destruct (f <=? l); simpl;
    [destruct (IH (n + 1) R ltac:(lia)) as [H1 H2]|destruct (IH n R ltac:(lia)) as [H1 H2]];
    by rewrite H1, H2.
Qed.

(** Intervals starting at or after the first change point are numbered
    from [n] on. *)
Lemma label_intervals_in_range (f n : Z) (L R : list Z) :
  length L = length R -> Forall (fun l => f <= l) L ->
  map snd (label_intervals f n (combine L R)) = py_range n (n + Z.of_nat (length L)).
Proof.
  revert n R. induction L as [|l L IH]; intros n [|r R] Hlen Hf; simpl in *; try done.
  - unfold py_range. by replace (Z.to_nat (n + Z.of_nat 0 - n)) with 0%nat by lia.
  - apply Forall_cons in Hf as [Hl Hf].
    rewrite (proj2 (Z.leb_le f l) Hl). simpl.
    rewrite (py_range_cons n) by lia. f_equal.
    rewrite IH by (done || lia). f_equal. lia.
Qed.
End ChangePointFacts.

(** ** Points that cover the whole series *)
Module CoverFacts.
Import AnnotFacts DenseFacts.

Lemma ssorted_lt_nodup (p : list Z) : StronglySorted Z.lt p -> List.NoDup p.
Proof.
  induction 1 as [|x l Hs IH Hf]; constructor; [|done].
  intros Hin. rewrite List.Forall_forall in Hf. specialize (Hf x Hin). lia.
Qed.

(** [L] distinct positions in [[0, L)] are all of them. *)
Lemma full_cover (p : list Z) (L : Z) :
  Sorted Z.lt p -> Forall (fun x => 0 <= x < L) p -> length p = Z.to_nat L ->
  forall i, 0 <= i < L -> In i p.
Proof.
  intros Hs Hin Hlen i Hi.
  apply (List.NoDup_length_incl (l := p) (l' := py_range 0 L)).
  - apply ssorted_lt_nodup, sorted_strongly, Hs.
  - rewrite BinSegFacts.py_range_length, Hlen. lia.
  - intros x Hx. apply BinSegFacts.py_range_spec.
    rewrite List.Forall_forall in Hin. specialize (Hin x Hx). lia.
  - apply BinSegFacts.py_range_spec. lia.
Qed.

(** A non-empty dense series of 1s has no 0 and is one segment labelled
    1. *)
Lemma dense_to_sparse_all_ones (d : list Z) :
  d <> [] -> (forall i, (i < length d)%nat -> d !! i = Some 1) ->
  dense_to_sparse d = Ok (Segments [mkSegment 1 0 (Z.of_nat (length d) - 1)]).
Proof.
  intros Hne H1.
  assert (Hin : forall v, In v d -> v = 1).
  { intros v Hv. apply list_elem_of_In, list_elem_of_lookup in Hv as [i Hi].
    pose proof (lookup_lt_Some _ _ _ Hi) as Hil. rewrite H1 in Hi by done. congruence. }
  destruct (dense_to_sparse_runs d Hne) as (segs & Hds & Hseg & Hcov & Hss).
  { intros v Hv. rewrite (Hin v Hv). lia. }
  rewrite Hds. do 2 f_equal.
  assert (Hlen : (0 < length d)%nat) by (destruct d; [done|simpl; lia]).
  assert (Hg : forall g, In g segs -> g = mkSegment 1 0 (Z.of_nat (length d) - 1)).
  { intros g Hgin. destruct (Hseg g Hgin) as (Hb & He & Hc & Hl & Hr).
    assert (Hlab : seg_label g = 1).
    { apply Hin. apply (lookup_In_Z d (seg_start g)). apply Hc. lia. }
    destruct g as [lab s e]; simpl in *. subst lab. f_equal.
    - destruct Hl as [->|(a & Ha & Hne')]; [done|]. exfalso.
      apply Hne', Hin. by apply (lookup_In_Z d (s - 1)).
    - destruct Hr as [->|(b & Hb' & Hne')]; [done|]. exfalso.
      apply Hne', Hin. by apply (lookup_In_Z d (e + 1)). }
  destruct (Hcov 0) as (g0 & Hg0 & _); [lia|].
  destruct segs as [|g [|h segs]]; [done| |].
  - rewrite (Hg g (or_introl eq_refl)). reflexivity.
  - exfalso. apply StronglySorted_inv in Hss as [_ Hf]. inversion Hf as [|? ? Hgh _].
    rewrite (Hg g), (Hg h) in Hgh by (simpl; tauto). simpl in Hgh. lia.
Qed.

End CoverFacts.


(** ** The claims *)

(** C1: fitting and predicting with threshold 1 returns exactly the change
    points [[3]] on [[1,1,1,1,5,5,5,5]] and exactly [[1, 3]] on
    [[1.1,1.3,-1.4,-1.4,5.5,5.6]]. *)
Theorem bs_predict_examples :
  BinSeg.predict [1; 1; 1; 1; 5; 5; 5; 5]%Q 1%Q = Ok [3] /\
  BinSeg.predict [Qmake 11 10; Qmake 13 10; Qmake (-14) 10; Qmake (-14) 10;
                  Qmake 55 10; Qmake 56 10] 1%Q = Ok [1; 3].
Proof. split; vm_compute; reflexivity. Qed.

(** C2: the segment table with labels [[1,2,1]], starts [[0,4,6]] and ends
    [[3,5,9]] becomes [[1,1,1,1,2,2,1,1,1,1]], through the stages of the
    two-pass scheme: starts marked with the label and ends with its
    negation, forward fill, ends restored, negatives clamped to -1. *)
Theorem sparse_to_dense_segments_example :
  let segs := [mkSegment 1 0 3; mkSegment 2 4 5; mkSegment 1 6 9] in
  sparse_to_dense (Segments segs) None = Ok [1; 1; 1; 1; 2; 2; 1; 1; 1; 1] /\
  (y1 ← iloc_set_rows (replicate 10 None) segs seg_start
          (fun r => Some (wrap32 (seg_label r)));
   iloc_set_rows y1 segs seg_end (fun r => Some (wrap32 (- wrap32 (seg_label r)))))
    = Ok [Some 1; None; None; Some (-1); Some 2; Some (-2); Some 1; None; None; Some (-1)] /\
  ffill [Some 1; None; None; Some (-1); Some 2; Some (-2); Some 1; None; None; Some (-1)]
    = [Some 1; Some 1; Some 1; Some (-1); Some 2; Some (-2); Some 1; Some 1; Some 1; Some (-1)] /\
  iloc_set_rows [1; 1; 1; -1; 2; -2; 1; 1; 1; -1] segs seg_end (fun r => wrap32 (seg_label r))
    = Ok [1; 1; 1; 1; 2; 2; 1; 1; 1; 1] /\
  clamp_negative [1; 1; 1; 1; 2; 2; 1; 1; 1; 1] = [1; 1; 1; 1; 2; 2; 1; 1; 1; 1].
Proof. simpl. repeat split; vm_compute; reflexivity. Qed.

(** C7: for a fixed series, a larger threshold never yields more change
    points (and neither run raises). *)
Theorem bs_threshold_antitone (X : list Q) (t1 t2 : Q) :
  (t1 <= t2)%Q ->
  match BinSeg.predict X t1, BinSeg.predict X t2 with
  | Ok l1, Ok l2 => (length l2 <= length l1)%nat
  | _, _ => False
  end.
Proof.
  intros Hle. unfold BinSeg.predict.
  set (e := Z.of_nat (length X) - 1).
  destruct (BinSegFacts.find_change_points_ok (length X) X 0 e t1 []) as [r1 H1].
  destruct (BinSegFacts.find_change_points_ok (length X) X 0 e t2 []) as [r2 H2].
  rewrite H1, H2. simpl. rewrite !BinSegFacts.list_sort_length.
  eapply BinSegFacts.find_change_points_antitone; eauto.
Qed.

Lemma bs_threshold_antitone_witness :
  (1 <= 2)%Q /\
  match BinSeg.predict [1; 1; 5; 5]%Q 1%Q, BinSeg.predict [1; 1; 5; 5]%Q 2%Q with
  | Ok l1, Ok l2 => (length l2 <= length l1)%nat
  | _, _ => False
  end.
Proof.
  split; [unfold Qle; simpl; lia|].
  apply (bs_threshold_antitone [1; 1; 5; 5]%Q 1%Q 2%Q). unfold Qle; simpl; lia.
Defined.

(** C8: the statistic helper raises [RuntimeError] exactly when the
    candidate lies outside [[start, end)], and returns a value for every
    candidate inside. *)
Theorem cumsum_statistic_raises_iff (X : list Q) (start end_ change_point : Z) :
  (BinSeg.cumsum_statistic X start end_ change_point = Err RuntimeError <->
     change_point < start \/ end_ <= change_point) /\
  ((exists r, BinSeg.cumsum_statistic X start end_ change_point = Ok r) <->
     start <= change_point < end_).
Proof.
  destruct (decide (start <= change_point < end_)) as [Hin|Hout].
  - destruct (BinSegFacts.cumsum_statistic_sq_bridge X start end_ change_point Hin)
      as (r & c & Hr & _ & _ & _).
    rewrite Hr. split; split; try done; [lia|]. eauto.
  - assert (Hg : change_point < start \/ end_ <= change_point) by lia.
    unfold BinSeg.cumsum_statistic.
    rewrite (BinSegFacts.out_window_guard start end_ change_point Hg).
    split; split; try done. intros [r Hr]. discriminate.
Qed.

(** C9: in a call with [0 <= start] and [end - start >= 1], every candidate
    of [range(start, end)] is inside [[start, end)], both weight
    denominators are positive and the statistic is computed without
    raising; and no call of the recursive search raises. *)
Theorem find_change_points_candidates_safe (fuel : nat) (X : list Q)
    (start end_ : Z) (threshold : Q) (change_points : list Z) :
  0 <= start -> 1 <= end_ - start ->
  (forall cp, In cp (py_range start end_) ->
     start <= cp < end_ /\
     0 < (end_ - start + 1) * (cp - start + 1) /\
     0 < (end_ - start + 1) * (end_ - cp) /\
     (exists r, BinSeg.cumsum_statistic X start end_ cp = Ok r) /\
     (exists c, BinSeg.cumsum_statistic_sq X start end_ cp = Ok c)) /\
  exists r, BinSeg.find_change_points fuel X start end_ threshold change_points = Ok r.
Proof.
  intros _ _. split; [|apply BinSegFacts.find_change_points_ok].
  intros cp Hcp. apply BinSegFacts.py_range_spec in Hcp.
  destruct (BinSegFacts.denominators_pos start end_ cp Hcp) as [H1 H2].
  destruct (BinSegFacts.cumsum_statistic_sq_bridge X start end_ cp Hcp)
    as (r & c & Hr & Hc & _ & _).
  repeat split; try lia; eauto.
Qed.

Lemma find_change_points_candidates_safe_witness :
  0 <= 0 /\ 1 <= 3 - 0 /\
  ((forall cp, In cp (py_range 0 3) ->
     0 <= cp < 3 /\
     0 < (3 - 0 + 1) * (cp - 0 + 1) /\
     0 < (3 - 0 + 1) * (3 - cp) /\
     (exists r, BinSeg.cumsum_statistic [1; 1; 5; 5]%Q 0 3 cp = Ok r) /\
     (exists c, BinSeg.cumsum_statistic_sq [1; 1; 5; 5]%Q 0 3 cp = Ok c)) /\
   exists r, BinSeg.find_change_points 4 [1; 1; 5; 5]%Q 0 3 1%Q [] = Ok r).
Proof.
  split; [lia|]. split; [lia|].
  apply (find_change_points_candidates_safe 4 [1; 1; 5; 5]%Q 0 3 1%Q []); lia.
Defined.

(** C10: on an empty points series or an empty segments table,
    [sparse_to_dense] fails with an out-of-bounds [IndexError] (reading
    [iloc[-1]]), whatever the length argument. *)
Theorem sparse_to_dense_empty (length_ : option Z) :
  sparse_to_dense (Points []) length_ = Err IndexError /\
  sparse_to_dense (Segments []) length_ = Err IndexError.
Proof. split; reflexivity. Qed.

(** C6: for a non-empty, strictly increasing series of (non-negative)
    positions, [sparse_to_dense] raises ([RuntimeError], the range check)
    exactly when the given length is at most [max(index)]; otherwise it
    returns a series of the given length (default [max(index)+1]) holding 1
    at each position of the series and 0 elsewhere; on [[2,5,7]] with
    length 10 it returns [[0,0,1,0,0,1,0,1,0,0]]. *)
Theorem sparse_to_dense_points_length (p : list Z) (length_ : option Z) :
  p <> [] -> Sorted Z.lt p -> Forall (Z.le 0) p ->
  (sparse_to_dense (Points p) length_ = Err RuntimeError <->
     exists L, length_ = Some L /\ L <= max_index p) /\
  ((forall L, length_ = Some L -> max_index p < L) ->
   exists d, sparse_to_dense (Points p) length_ = Ok d /\
     length d = Z.to_nat (default (max_index p + 1) length_) /\
     forall i, (i < length d)%nat ->
       (In (Z.of_nat i) p -> d !! i = Some 1) /\
       (~ In (Z.of_nat i) p -> d !! i = Some 0)) /\
  sparse_to_dense (Points [2; 5; 7]) (Some 10) = Ok [0; 0; 1; 0; 0; 1; 0; 1; 0; 0].
Proof.
  intros Hne Hs Hpos.
  destruct (AnnotFacts.sparse_to_dense_points p length_ Hne Hs Hpos) as [Herr Hok].
  split; [|split; [|reflexivity]].
  - split.
    + intros H. destruct length_ as [L|]; simpl in *.
      * exists L. split; [done|]. destruct (Z.le_gt_cases L (max_index p)) as [|Hgt]; [done|].
        destruct (Hok Hgt) as (d & Hd & _). congruence.
      * destruct (Hok ltac:(lia)) as (d & Hd & _). congruence.
    + intros (L & -> & HL). by apply Herr.
  - intros Hgt. apply Hok. destruct length_ as [L|]; simpl; [by apply Hgt|lia].
Qed.

Lemma sparse_to_dense_points_length_witness :
  [2; 5; 7] <> [] /\ Sorted Z.lt [2; 5; 7] /\ Forall (Z.le 0) [2; 5; 7] /\
  ((sparse_to_dense (Points [2; 5; 7]) (Some 10) = Err RuntimeError <->
     exists L, Some 10 = Some L /\ L <= max_index [2; 5; 7]) /\
   ((forall L, Some 10 = Some L -> max_index [2; 5; 7] < L) ->
    exists d, sparse_to_dense (Points [2; 5; 7]) (Some 10) = Ok d /\
      length d = Z.to_nat (default (max_index [2; 5; 7] + 1) (Some 10)) /\
      forall i, (i < length d)%nat ->
        (In (Z.of_nat i) [2; 5; 7] -> d !! i = Some 1) /\
        (~ In (Z.of_nat i) [2; 5; 7] -> d !! i = Some 0)) /\
   sparse_to_dense (Points [2; 5; 7]) (Some 10) = Ok [0; 0; 1; 0; 0; 1; 0; 1; 0; 0]).
Proof.
  assert (Hs : Sorted Z.lt [2; 5; 7]) by (repeat constructor; lia).
  assert (Hp : Forall (Z.le 0) [2; 5; 7]) by (repeat constructor; lia).
  split; [done|]. split; [done|]. split; [done|].
  exact (sparse_to_dense_points_length [2; 5; 7] (Some 10) ltac:(done) Hs Hp).
Defined.

(** C3 (counterexample): when the points cover every position of
    [[0, L)] the dense series has no 0, and [dense_to_sparse] reads it as
    segments: [[0]] with length 1 comes back as one segment, not as [[0]]. *)
Lemma dense_round_trip_points_full_cover :
  (d ← sparse_to_dense (Points [0]) (Some 1); dense_to_sparse d)
    = Ok (Segments [mkSegment 1 0 0]) /\
  (d ← sparse_to_dense (Points [0]) (Some 1); dense_to_sparse d) <> Ok (Points [0]).
Proof. split; [reflexivity|vm_compute; discriminate]. Qed.

(** C3 (amended): for a non-empty, strictly increasing series [p] of
    positions in [[0, L)], [dense_to_sparse (sparse_to_dense p L)] returns
    exactly [p] when [p] leaves at least one position of [[0, L)] unmarked
    (fewer than [L] elements); when [p] covers every position of [[0, L)]
    ([L] elements) the dense series is all 1s, has no 0, and comes back as
    a segments table: one segment labelled 1 spanning [[0, L-1]]. *)
Theorem dense_round_trip_points (p : list Z) (L : Z) :
  p <> [] -> Sorted Z.lt p -> Forall (fun x => 0 <= x < L) p ->
  ((length p < Z.to_nat L)%nat ->
   (d ← sparse_to_dense (Points p) (Some L); dense_to_sparse d) = Ok (Points p)) /\
  (length p = Z.to_nat L ->
   (d ← sparse_to_dense (Points p) (Some L); dense_to_sparse d)
     = Ok (Segments [mkSegment 1 0 (L - 1)])).
Proof.
  intros Hne Hs Hin0. pose proof Hin0 as Hin. rewrite List.Forall_forall in Hin.
  assert (Hpos : Forall (Z.le 0) p).
  { apply List.Forall_forall. intros x Hx. specialize (Hin x Hx). lia. }
  pose proof (AnnotFacts.sorted_strongly p Hs) as Hss.
  destruct (AnnotFacts.max_index_last p Hne Hss) as [Hlast _].
  assert (HmL : max_index p < L).
  { apply last_Some_elem_of, list_elem_of_In in Hlast. specialize (Hin _ Hlast). lia. }
  destruct (AnnotFacts.sparse_to_dense_points p (Some L) Hne Hs Hpos) as [_ Hok].
  destruct (Hok HmL) as (d & Hd & Hlen & Hdi). simpl in Hlen.
  rewrite Hd. simpl. split.
  - intros Hlt. unfold dense_to_sparse.
    rewrite (AnnotFacts.dense_points_has_zero p d) by (done || lia).
    do 2 f_equal. apply AnnotFacts.strictly_sorted_ext; [apply AnnotFacts.where_from_sorted|done|].
    intros z. unfold np_where. rewrite AnnotFacts.where_from_spec. split.
    + intros (i & Hi & ->). rewrite AnnotFacts.lookup_map in Hi.
      destruct (d !! i) as [v|] eqn:Hv; [|discriminate].
      simpl in Hi. injection Hi as Hv1. apply Z.eqb_eq in Hv1. subst v.
      assert (Hil : (i < length d)%nat) by (apply lookup_lt_is_Some; eauto).
      destruct (in_dec Z.eq_dec (Z.of_nat i) p) as [Hp|Hn].
      * by replace (0 + Z.of_nat i) with (Z.of_nat i) by lia.
      * rewrite (proj2 (Hdi i Hil) Hn) in Hv. discriminate.
    + intros Hz. specialize (Hin z Hz).
      exists (Z.to_nat z). split; [|lia].
      rewrite AnnotFacts.lookup_map.
      rewrite (proj1 (Hdi (Z.to_nat z) ltac:(lia))); [done|].
      by rewrite Z2Nat.id by lia.
  - intros Heq.
    assert (Hd1 : forall i, (i < length d)%nat -> d !! i = Some 1).
    { intros i Hi. apply (proj1 (Hdi i Hi)).
      apply (CoverFacts.full_cover p L Hs Hin0 Heq). lia. }
    assert (Hdne : d <> []).
    { intros ->. simpl in Hlen. destruct p; [done|]. simpl in Heq. lia. }
    rewrite (CoverFacts.dense_to_sparse_all_ones d Hdne Hd1).
    assert (Z.of_nat (length d) - 1 = L - 1) as ->; [|reflexivity].
    destruct p; [done|]. simpl in Heq. lia.
Qed.

Lemma dense_round_trip_points_witness :
  [2; 5; 7] <> [] /\ Sorted Z.lt [2; 5; 7] /\ Forall (fun x => 0 <= x < 10) [2; 5; 7] /\
  ((length [2; 5; 7] < Z.to_nat 10)%nat ->
   (d ← sparse_to_dense (Points [2; 5; 7]) (Some 10); dense_to_sparse d)
     = Ok (Points [2; 5; 7])) /\
  (length [2; 5; 7] = Z.to_nat 10 ->
   (d ← sparse_to_dense (Points [2; 5; 7]) (Some 10); dense_to_sparse d)
     = Ok (Segments [mkSegment 1 0 (10 - 1)])).
Proof.
  assert (Hs : Sorted Z.lt [2; 5; 7]) by (repeat constructor; lia).
  assert (Hr : Forall (fun x => 0 <= x < 10) [2; 5; 7]) by (repeat constructor; lia).
  split; [done|]. split; [done|]. split; [done|].
  exact (dense_round_trip_points [2; 5; 7] 10 ltac:(done) Hs Hr).
Defined.

(** C4 (counterexample): with [start] supplied and not after the first
    change point, an [end] before the last change point still raises
    [ValueError] (from [IntervalIndex.from_breaks]); and an omitted [start]
    raises [TypeError] at [start > breaks.min()]. *)
Lemma change_points_to_segments_end_error :
  change_points_to_segments [1; 2; 5] (Some 0) (Some 3) = Err ValueError /\
  change_points_to_segments [1; 2; 5] None (Some 7) = Err TypeError.
Proof. split; reflexivity. Qed.

(** C4 (amended): for a non-empty, strictly increasing change-point series
    (whose minimum is its first element [x]) and a supplied [start],
    [change_points_to_segments] raises [ValueError] exactly when [start]
    exceeds the minimum change point or a supplied [end] lies before the
    last (maximum) change point; otherwise it returns the segments. *)
Theorem change_points_to_segments_value_error (x : Z) (t : list Z) (start : Z)
    (end_ : option Z) :
  Sorted Z.lt (x :: t) ->
  np_min (x :: t) = Ok x /\
  (change_points_to_segments (x :: t) (Some start) end_ = Err ValueError <->
     x < start \/ (exists e, end_ = Some e /\ e < max_index (x :: t))) /\
  ((start <= x /\ forall e, end_ = Some e -> max_index (x :: t) <= e) ->
     exists segs, change_points_to_segments (x :: t) (Some start) end_ = Ok segs).
Proof.
  intros Hs. pose proof (AnnotFacts.np_min_sorted x t Hs) as Hmin.
  pose proof (AnnotFacts.sorted_strongly _ Hs) as Hss.
  destruct (AnnotFacts.max_index_last (x :: t) ltac:(done) Hss) as [Hlast Hle].
  set (m := max_index (x :: t)) in *.
  assert (Hok : start <= x -> (forall e, end_ = Some e -> m <= e) ->
            exists segs, change_points_to_segments (x :: t) (Some start) end_ = Ok segs).
  { intros Hsx He. unfold change_points_to_segments. rewrite Hmin. simpl.
    rewrite (proj2 (Z.ltb_ge x start) Hsx). simpl.
    unfold interval_index_from_breaks.
    assert (Hb : Sorted Z.le (start :: x :: t)).
    { constructor; [by apply AnnotFacts.sorted_lt_le|]. constructor. done. }
    destruct end_ as [e|].
    - rewrite AnnotFacts.intervals_of_sorted; [by eexists|].
      change (start :: x :: t ++ [e]) with ((start :: x :: t) ++ [e]).
      assert (Hxm : x <= m) by (by inversion Hle).
      apply AnnotFacts.sorted_snoc; [done|]. constructor; [specialize (He e eq_refl); lia|].
      eapply Forall_impl; [exact Hle|]. intros y Hy. specialize (He e eq_refl). simpl in Hy. lia.
    - rewrite AnnotFacts.intervals_of_sorted by done. by eexists. }
  split; [done|]. split; [|intros [H1 H2]; by apply Hok].
  split.
  - intros Herr. destruct (Z.lt_ge_cases x start) as [|Hsx]; [by left|right].
    destruct end_ as [e|].
    + exists e. split; [done|]. destruct (Z.lt_ge_cases e m) as [|Hme]; [done|].
      destruct (Hok Hsx) as [segs Hsegs]; [intros e' [= <-]; lia|]. congruence.
    + destruct (Hok Hsx) as [segs Hsegs]; [done|]. congruence.
  - intros Hc. unfold change_points_to_segments. rewrite Hmin. simpl.
    destruct (Z.ltb_spec x start) as [Hxs|Hsx]; [done|]. simpl.
    destruct Hc as [|(e & -> & Hem)]; [lia|].
    unfold interval_index_from_breaks.
    replace (forallb _ _) with false; [done|]. symmetry.
    apply not_true_iff_false. rewrite forallb_forall. intros Hall.
    assert (Hin : In (m, e) (intervals_of ((start :: x :: t) ++ [e]))).
    { apply AnnotFacts.intervals_of_snoc. by rewrite last_cons_cons. }
    specialize (Hall _ Hin). simpl in Hall. apply Z.leb_le in Hall. lia.
Qed.

Lemma change_points_to_segments_value_error_witness :
  Sorted Z.lt [1; 2; 5] /\
  np_min [1; 2; 5] = Ok 1 /\
  (change_points_to_segments [1; 2; 5] (Some 0) (Some 7) = Err ValueError <->
     1 < 0 \/ (exists e, Some 7 = Some e /\ e < max_index [1; 2; 5])) /\
  ((0 <= 1 /\ forall e, Some 7 = Some e -> max_index [1; 2; 5] <= e) ->
     exists segs, change_points_to_segments [1; 2; 5] (Some 0) (Some 7) = Ok segs).
Proof.
  assert (Hs : Sorted Z.lt [1; 2; 5]) by (repeat constructor; lia).
  split; [done|].
  exact (change_points_to_segments_value_error 1 [2; 5] 0 (Some 7) Hs).
Defined.

(** C5 (counterexample): two touching segments with the same label merge
    in the dense form, so the start 4 of the second one is not reported. *)
Lemma segments_to_change_points_merged_labels :
  segments_to_change_points [mkSegment 1 0 3; mkSegment 1 4 5] = Ok [].
Proof. vm_compute. reflexivity. Qed.

(** C5 (amended): for a non-empty table of in-order, non-overlapping
    segments with int32-representable positive labels, where touching
    segments carry different labels, [segments_to_change_points] succeeds,
    never reports position 0, and reports the start of every segment that
    does not start at 0. *)
Theorem segments_to_change_points_starts (segs : list Segment) :
  segs <> [] -> segments_valid segs -> touching_labels_differ segs ->
  exists cps, segments_to_change_points segs = Ok cps /\ ~ In 0 cps /\
    forall g, In g segs -> seg_start g <> 0 -> In (seg_start g) cps.
Proof.
  intros Hne Hv Ht.
  destruct (SegFacts.sparse_to_dense_segments_spec segs Hne Hv)
    as (e & d & He & Hd & Hlen & Hin & Hout).
  unfold segments_to_change_points. rewrite Hd. simpl.
  destruct d as [|d0 dt].
  { destruct segs as [|g t]; [done|].
    pose proof (SegFacts.valid_bounds _ g Hv ltac:(by left)).
    specialize (Hin g (Z.to_nat (seg_start g)) ltac:(by left) ltac:(lia)). done. }
  change (diff_prev (d0 :: dt))
    with (None :: zip_with (fun a b : Z => Some (b - a)) (d0 :: dt) dt).
  remember (zip_with (fun a b : Z => Some (b - a)) (d0 :: dt) dt) as z eqn:Hz.
  simpl. eexists. split; [reflexivity|]. unfold np_where. split.
  - rewrite AnnotFacts.where_from_spec. intros (i & Hi & H0).
    destruct i as [|i]; [done|lia].
  - intros g Hg Hs0. pose proof (SegFacts.valid_bounds _ g Hv Hg) as Hb.
    rewrite AnnotFacts.where_from_spec. exists (Z.to_nat (seg_start g)). split; [|lia].
    destruct (Z.to_nat (seg_start g)) as [|q] eqn:Hq; [lia|].
    assert (Hq' : seg_start g = Z.of_nat q + 1) by lia.
    simpl. rewrite AnnotFacts.lookup_map, Hz, lookup_zip_with.
    assert (HdS : (d0 :: dt) !! S q = Some (seg_label g)) by (apply Hin; [done|lia]).
    simpl in HdS. rewrite HdS.
    destruct (existsb (fun h => (seg_start h <=? Z.of_nat q) && (Z.of_nat q <=? seg_end h))
                segs) eqn:Hex.
    + apply existsb_exists in Hex as (h & Hh & Hhq).
      apply andb_true_iff in Hhq as [Hhq1 Hhq2].
      apply Z.leb_le in Hhq1. apply Z.leb_le in Hhq2.
      rewrite (Hin h q Hh ltac:(lia)). simpl.
      pose proof (SegFacts.valid_bounds _ h Hv Hh).
      assert (Hend : seg_end h = Z.of_nat q).
      { destruct (SegFacts.valid_pairwise segs g h Hv Hg Hh) as [<-|[?|?]]; lia. }
      specialize (Ht g h Hg Hh ltac:(lia)).
      destruct (Z.eqb_spec (seg_label g - seg_label h) 0); [lia|done].
    + pose proof (SegFacts.existsb_false_forall _ _ Hex) as Hno.
      assert (Hqlen : (q < length (d0 :: dt))%nat).
      { apply lookup_lt_Some in HdS. simpl in *. lia. }
      rewrite (Hout q Hqlen).
      2:{ intros h Hh Hr. specialize (Hno h Hh). simpl in Hno.
          rewrite (proj2 (Z.leb_le _ _)), (proj2 (Z.leb_le _ _)) in Hno by lia. done. }
      simpl. destruct (Z.eqb_spec (seg_label g - -1) 0); [lia|done].
Qed.

(** Witness of C5: the docstring example, whose segments start at 2, 5
    and 7. *)
Lemma segments_to_change_points_starts_witness :
  exists cps,
    segments_to_change_points [mkSegment 1 2 4; mkSegment 2 5 6; mkSegment 1 7 8] = Ok cps /\
    ~ In 0 cps /\
    forall g, In g [mkSegment 1 2 4; mkSegment 2 5 6; mkSegment 1 7 8] ->
      seg_start g <> 0 -> In (seg_start g) cps.
Proof.
  apply segments_to_change_points_starts.
  - done.
  - simpl. repeat split; repeat constructor; simpl; lia.
  - unfold touching_labels_differ. intros g h Hg Hh.
    simpl in Hg, Hh.
    destruct Hg as [<-|[<-|[<-|[]]]]; destruct Hh as [<-|[<-|[<-|[]]]]; simpl; lia.
Defined.

(** ** Further properties of the code *)

(** X7: the segments branch of [sparse_to_dense] with an explicit
    [length]: a [RuntimeError] when [length] does not exceed the last
    segment's end; otherwise a series of exactly [length] values, each
    segment's positions carrying its label and every other position,
    the padding after the last segment included, holding -1. *)
Theorem sparse_to_dense_segments_length (segs : list Segment) (L e : Z) :
  segs <> [] -> segments_valid segs -> last (map seg_end segs) = Some e ->
  (L <= e -> sparse_to_dense (Segments segs) (Some L) = Err RuntimeError) /\
  (e < L -> exists d, sparse_to_dense (Segments segs) (Some L) = Ok d /\
     length d = Z.to_nat L /\
     (forall g i, In g segs -> seg_start g <= Z.of_nat i <= seg_end g ->
        d !! i = Some (seg_label g)) /\
     (forall i, (i < length d)%nat ->
        (forall g, In g segs -> ~ (seg_start g <= Z.of_nat i <= seg_end g)) ->
        d !! i = Some (-1))).
Proof.
  intros Hne Hv He. split.
  - intros HL. simpl. rewrite (AnnotFacts.iloc_get_last _ _ He). simpl.
    by rewrite (proj2 (Z.leb_le L e) HL).
  - intros HL. exact (SegFacts.sparse_to_dense_segments_spec_len segs (Some L) e Hne Hv He HL).
Qed.

Lemma sparse_to_dense_segments_length_witness :
  sparse_to_dense (Segments [mkSegment 1 0 3; mkSegment 2 5 6]) (Some 6) = Err RuntimeError /\
  exists d, sparse_to_dense (Segments [mkSegment 1 0 3; mkSegment 2 5 6]) (Some 10) = Ok d /\
     length d = Z.to_nat 10 /\
     (forall g i, In g [mkSegment 1 0 3; mkSegment 2 5 6] -> seg_start g <= Z.of_nat i <= seg_end g ->
        d !! i = Some (seg_label g)) /\
     (forall i, (i < length d)%nat ->
        (forall g, In g [mkSegment 1 0 3; mkSegment 2 5 6] -> ~ (seg_start g <= Z.of_nat i <= seg_end g)) ->
        d !! i = Some (-1)).
Proof.
  assert (Hv : segments_valid [mkSegment 1 0 3; mkSegment 2 5 6]).
  { simpl. repeat split; repeat constructor; simpl; lia. }
  split.
  - apply (proj1 (sparse_to_dense_segments_length [mkSegment 1 0 3; mkSegment 2 5 6] 6 6
                    ltac:(discriminate) Hv eq_refl)). lia.
  - apply (proj2 (sparse_to_dense_segments_length [mkSegment 1 0 3; mkSegment 2 5 6] 10 6
                    ltac:(discriminate) Hv eq_refl)). lia.
Defined.

(** X8: a dense series of labels, each -1 or a positive int32, with at
    least one label other than -1, survives the round trip
    [sparse_to_dense(dense_to_sparse(y), length=len(y))]: its maximal
    constant runs become the segments, those of -1 are dropped, and
    rebuilding them gives back the series. *)
Theorem dense_to_sparse_segments_round_trip (d : list Z) :
  (forall v, In v d -> v = -1 \/ 0 < v < 2 ^ 31) -> (exists v, In v d /\ v <> -1) ->
  exists segs, dense_to_sparse d = Ok (Segments segs) /\
    sparse_to_dense (Segments segs) (Some (Z.of_nat (length d))) = Ok d.
Proof.
  intros Hv (v0 & Hv0 & Hv0').
  assert (Hne : d <> []) by (intros ->; done).
  destruct (DenseFacts.dense_to_sparse_runs d Hne) as (segs & Hd & Ha & Hb & Hc).
  { intros v Hv'. destruct (Hv v Hv'); lia. }
  set (f := filter (fun r => negb (seg_label r =? -1)) segs) in Hd.
  exists f. split; [done|].
  assert (Hvalid : segments_valid f).
  { apply DenseFacts.valid_iff_sorted. split; [by apply DenseFacts.ssorted_filter|].
    intros g Hg. apply DenseFacts.in_filter_label in Hg as [Hg Hl].
    destruct (Ha g Hg) as (H1 & H2 & H3 & _). split; [lia|].
    pose proof (H3 (seg_start g) ltac:(lia)) as Hs. apply DenseFacts.lookup_In_Z in Hs.
    destruct (Hv _ Hs); lia. }
  assert (Hfne : f <> []).
  { apply list_elem_of_In, list_elem_of_lookup in Hv0 as [i Hi].
    pose proof (lookup_lt_Some _ _ _ Hi) as Hlt.
    destruct (Hb (Z.of_nat i) ltac:(lia)) as (g & Hg & Hgi).
    destruct (Ha g Hg) as (_ & _ & H3 & _). pose proof (H3 _ Hgi) as Hdi.
    rewrite Nat2Z.id, Hi in Hdi. injection Hdi as Hdi.
    assert (Hgf : In g f) by (apply DenseFacts.in_filter_label; split; [done|lia]).
    intros Hf. rewrite Hf in Hgf. done. }
  destruct (SegFacts.valid_last_end f Hfne Hvalid) as (e & He & Hall).
  assert (Hen : e < default (e + 1) (Some (Z.of_nat (length d)))).
  { simpl. apply last_Some_elem_of, list_elem_of_In, in_map_iff in He as (g & <- & Hg).
    apply DenseFacts.in_filter_label in Hg as [Hg _]. by destruct (Ha g Hg) as (_ & H2 & _). }
  destruct (SegFacts.sparse_to_dense_segments_spec_len f _ e Hfne Hvalid He Hen)
    as (d' & Hd' & Hlen & Hreg & Hout).
  simpl in Hlen. rewrite Nat2Z.id in Hlen.
  rewrite Hd'. f_equal. apply list_eq. intros i.
  destruct (decide (i < length d)%nat) as [Hi|Hi].
  - destruct (Hb (Z.of_nat i) ltac:(lia)) as (g & Hg & Hgi).
    destruct (Ha g Hg) as (_ & _ & H3 & _).
    pose proof (H3 _ Hgi) as Hdi. rewrite Nat2Z.id in Hdi. rewrite Hdi.
    destruct (Z.eq_dec (seg_label g) (-1)) as [Hl|Hl].
    + rewrite Hl. apply Hout; [lia|]. intros h Hh Hhi.
      apply DenseFacts.in_filter_label in Hh as [Hh Hhl].
      destruct (Ha h Hh) as (_ & _ & H3' & _). pose proof (H3' _ Hhi) as Hdh.
      rewrite Nat2Z.id in Hdh. congruence.
    + apply Hreg; [by apply DenseFacts.in_filter_label|done].
  - rewrite !lookup_ge_None_2 by lia. done.
Qed.

Lemma dense_to_sparse_segments_round_trip_witness :
  exists segs, dense_to_sparse [1; 1; -1; 2; 2; 1] = Ok (Segments segs) /\
    sparse_to_dense (Segments segs) (Some (Z.of_nat (length [1; 1; -1; 2; 2; 1]))) =
      Ok [1; 1; -1; 2; 2; 1].
Proof.
  apply dense_to_sparse_segments_round_trip.
  - intros v Hv. repeat destruct Hv as [<-|Hv]; try lia; done.
  - exists 1. split; [by left|lia].
Defined.

(** X9: a valid segment table whose touching segments carry different
    labels survives the round trip
    [dense_to_sparse(sparse_to_dense(segments))]. *)
Theorem sparse_to_dense_segments_round_trip (segs : list Segment) :
  segs <> [] -> segments_valid segs -> touching_labels_differ segs ->
  exists d, sparse_to_dense (Segments segs) None = Ok d /\
    dense_to_sparse d = Ok (Segments segs).
Proof.
  intros Hne Hv Htl.
  destruct (SegFacts.valid_last_end segs Hne Hv) as (e & He & Hall).
  rewrite List.Forall_forall in Hall.
  destruct (SegFacts.sparse_to_dense_segments_spec_len segs None e Hne Hv He ltac:(simpl; lia))
    as (d & Hd & Hlen & Hreg & Hout).
  simpl in Hlen. exists d. split; [done|].
  assert (He0 : 0 <= e).
  { destruct segs as [|g0 t]; [done|].
    pose proof (SegFacts.valid_bounds _ g0 Hv ltac:(by left)). specialize (Hall g0 ltac:(by left)). lia. }
  assert (Hn : Z.of_nat (length d) = e + 1) by lia.
  assert (Hreg' : forall g p, In g segs -> seg_start g <= p <= seg_end g ->
                    d !! Z.to_nat p = Some (seg_label g)).
  { intros g p Hg Hp. pose proof (SegFacts.valid_bounds _ g Hv Hg).
    apply Hreg; [done|]. rewrite Z2Nat.id; lia. }
  assert (Hout' : forall p, 0 <= p < Z.of_nat (length d) ->
                    (forall g, In g segs -> ~ (seg_start g <= p <= seg_end g)) ->
                    d !! Z.to_nat p = Some (-1)).
  { intros p Hp Hu. apply Hout; [lia|]. rewrite Z2Nat.id by lia. done. }
  assert (Hdne : d <> []) by (intros ->; simpl in Hn; lia).
  destruct (DenseFacts.dense_to_sparse_runs d Hdne) as (rsegs & Hds & Ha & Hb & Hc).
  { intros v Hvd. apply list_elem_of_In, list_elem_of_lookup in Hvd as [i Hi].
    pose proof (lookup_lt_Some _ _ _ Hi) as Hlt.
    destruct (DenseFacts.covered_dec segs (Z.of_nat i)) as [(g & Hg & Hgi)|Hu].
    - pose proof (Hreg g i Hg Hgi) as Hdi. pose proof (SegFacts.valid_bounds _ g Hv Hg).
      rewrite Hi in Hdi. injection Hdi as ->. lia.
    - pose proof (Hout i Hlt Hu) as Hdi. rewrite Hi in Hdi. injection Hdi as ->. lia. }
  (* a run with a label other than -1 is a row of the table *)
  assert (Hrun : forall g, In g rsegs -> seg_label g <> -1 -> In g segs).
  { intros g Hg Hl. destruct (Ha g Hg) as (H1 & H2 & H3 & H4 & H5).
    destruct (DenseFacts.covered_dec segs (seg_start g)) as [(h & Hh & Hhs)|Hu].
    2:{ exfalso. pose proof (Hout' (seg_start g) ltac:(lia) Hu) as Hm1.
        rewrite H3 in Hm1 by lia. congruence. }
    pose proof (SegFacts.valid_bounds _ h Hv Hh) as Hbh.
    pose proof (Hall h Hh) as Heh.
    assert (Hlab : seg_label h = seg_label g).
    { pose proof (Hreg' h _ Hh Hhs) as X. rewrite H3 in X by lia. congruence. }
    assert (Hs : seg_start h = seg_start g).
    { destruct (Z.eq_dec (seg_start h) (seg_start g)) as [|Hlt]; [done|exfalso].
      destruct H4 as [H4|(a & Ha' & Hab)]; [lia|].
      rewrite (Hreg' h) in Ha' by (done || lia). congruence. }
    assert (Hend : seg_end h = seg_end g).
    { destruct (Z.lt_total (seg_end g) (seg_end h)) as [Hlt|[Heq|Hlt]]; [exfalso| done |exfalso].
      - destruct H5 as [H5|(b & Hb' & Hbl)]; [lia|].
        rewrite (Hreg' h) in Hb' by (done || lia). congruence.
      - set (p := seg_end h + 1).
        assert (Hdp : d !! Z.to_nat p = Some (seg_label g)) by (apply H3; lia).
        destruct (DenseFacts.covered_dec segs p) as [(k & Hk & Hkp)|Hu].
        + rewrite (Hreg' k) in Hdp by done. injection Hdp as Hdp.
          destruct (SegFacts.valid_pairwise segs h k Hv Hh Hk) as [<-|[Hhk|Hkh]]; [lia| |lia].
          apply (Htl k h Hk Hh); [lia|congruence].
        + rewrite Hout' in Hdp by (done || lia). congruence. }
    destruct g as [lg sg eg], h as [lh sh eh]; simpl in *. subst. done. }
  rewrite Hds. do 2 f_equal. apply DenseFacts.segments_sorted_ext.
  - intros g Hg. apply DenseFacts.in_filter_label in Hg as [Hg _].
    destruct (Ha g Hg); lia.
  - by apply DenseFacts.ssorted_filter.
  - by apply DenseFacts.valid_iff_sorted.
  - intros g. rewrite DenseFacts.in_filter_label. split.
    + intros [Hg Hl]. by apply Hrun.
    + intros Hg. pose proof (SegFacts.valid_bounds _ g Hv Hg) as Hbg.
      pose proof (Hall g Hg) as Heg.
      destruct (Hb (seg_start g) ltac:(lia)) as (r & Hr & Hrs).
      destruct (Ha r Hr) as (_ & _ & H3 & _).
      pose proof (H3 _ Hrs) as X. rewrite (Hreg' g) in X by (done || lia).
      injection X as X.
      assert (Hrl : seg_label r <> -1) by lia.
      pose proof (Hrun r Hr Hrl) as Hrsegs. pose proof (SegFacts.valid_bounds _ r Hv Hrsegs).
      destruct (SegFacts.valid_pairwise segs g r Hv Hg Hrsegs) as [<-|[Hgr|Hrg]];
        [split; [done|lia]|lia|lia].
Qed.

Lemma sparse_to_dense_segments_round_trip_witness :
  exists d, sparse_to_dense (Segments [mkSegment 1 0 3; mkSegment 2 4 5; mkSegment 1 7 8]) None = Ok d /\
    dense_to_sparse d = Ok (Segments [mkSegment 1 0 3; mkSegment 2 4 5; mkSegment 1 7 8]).
Proof.
  apply sparse_to_dense_segments_round_trip.
  - discriminate.
  - simpl. repeat split; repeat constructor; simpl; lia.
  - unfold touching_labels_differ. intros g h Hg Hh.
    simpl in Hg, Hh.
    destruct Hg as [<-|[<-|[<-|[]]]]; destruct Hh as [<-|[<-|[<-|[]]]]; simpl; lia.
Defined.

(** X10: for a valid, non-empty segment table whose touching segments
    carry different labels, [segments_to_change_points] returns, in
    increasing order, exactly the positive positions that start a segment
    or follow the end of a segment while some segment still ends at or
    after them (the start of a gap). *)
Theorem segments_to_change_points_exact (segs : list Segment) :
  segs <> [] -> segments_valid segs -> touching_labels_differ segs ->
  exists cps, segments_to_change_points segs = Ok cps /\ Sorted Z.lt cps /\
    forall c, In c cps <->
      0 < c /\ ((exists g, In g segs /\ seg_start g = c) \/
                (exists g h, In g segs /\ In h segs /\ seg_end g + 1 = c /\ c <= seg_end h)).
Proof.
  intros Hne Hv Htl.
  destruct (DenseFacts.dense_of_segments segs Hne Hv)
    as (e & d & He & Hd & He0 & Hn & Hall & Hreg & Hout).
  unfold segments_to_change_points. rewrite Hd.
  destruct d as [|d0 dt]; [simpl in Hn; lia|].
  set (z := zip_with (fun a b : Z => Some (b - a)) (d0 :: dt) dt).
  assert (Hsf : set_first (diff_prev (d0 :: dt)) = Ok (Some 0 :: z)) by reflexivity.
  assert (Hdp : None :: z = diff_prev (d0 :: dt)) by reflexivity.
  cbv [mbind result_bind]. rewrite Hsf. cbv [mret result_ret].
  eexists. split; [reflexivity|]. split.
  { apply StronglySorted_Sorted, AnnotFacts.where_from_sorted. }
  clearbody z. set (d := d0 :: dt) in *. clearbody d.
  intros c. rewrite DenseFacts.set_first_where, Hdp, DenseFacts.starts_spec.
  assert (Hlast : exists h, In h segs /\ seg_end h = e).
  { apply last_Some_elem_of, list_elem_of_In, in_map_iff in He as (h & <- & Hh). eauto. }
  split.
  - intros [[Hc [->|(a & b & Ha & Hb & Hab)]] Hc0]; [done|]. split; [lia|].
    destruct (DenseFacts.covered_dec segs c) as [(g & Hg & Hgc)|Hu].
    + left. exists g. split; [done|].
      destruct (Z.eq_dec (seg_start g) c) as [|Hsc]; [done|exfalso].
      rewrite (Hreg g) in Ha, Hb by (done || lia). congruence.
    + right. rewrite (Hout c) in Hb by (done || lia). injection Hb as <-.
      destruct (DenseFacts.covered_dec segs (c - 1)) as [(g & Hg & Hgc)|Hu'].
      * destruct (Hlast) as (h & Hh & Hhe). exists g, h. split; [done|]. split; [done|].
        split; [|lia]. destruct (Z.eq_dec (seg_end g) (c - 1)) as [|Hgc']; [lia|].
        exfalso. apply (Hu g Hg). lia.
      * exfalso. rewrite (Hout (c - 1)) in Ha by (done || lia). congruence.
  - intros [Hc0 [(g & Hg & <-)|(g & h & Hg & Hh & <- & Hch)]].
    + pose proof (SegFacts.valid_bounds _ g Hv Hg) as Hbg. pose proof (Hall g Hg).
      split; [|lia]. split; [lia|right].
      exists (match d !! Z.to_nat (seg_start g - 1) with Some a => a | None => 0 end),
             (seg_label g).
      rewrite (Hreg g (seg_start g)) by (done || lia).
      destruct (DenseFacts.covered_dec segs (seg_start g - 1)) as [(k & Hk & Hkc)|Hu].
      * rewrite (Hreg k) by (done || lia). split; [done|]. split; [done|].
        pose proof (SegFacts.valid_bounds _ k Hv Hk).
        destruct (SegFacts.valid_pairwise segs g k Hv Hg Hk) as [<-|[Hgk|Hkg]]; [lia|lia|].
        apply (Htl g k Hg Hk). lia.
      * rewrite (Hout (seg_start g - 1)) by (done || lia). split; [done|]. split; [done|]. lia.
    + pose proof (SegFacts.valid_bounds _ g Hv Hg) as Hbg. pose proof (Hall h Hh).
      split; [|lia]. split; [lia|right].
      exists (seg_label g),
             (match d !! Z.to_nat (seg_end g + 1) with Some b => b | None => 0 end).
      replace (seg_end g + 1 - 1) with (seg_end g) by lia.
      rewrite (Hreg g (seg_end g)) by (done || lia).
      destruct (DenseFacts.covered_dec segs (seg_end g + 1)) as [(k & Hk & Hkc)|Hu].
      * rewrite (Hreg k) by (done || lia). split; [done|]. split; [done|].
        pose proof (SegFacts.valid_bounds _ k Hv Hk).
        destruct (SegFacts.valid_pairwise segs g k Hv Hg Hk) as [<-|[Hgk|Hkg]]; [lia| |lia].
        intros Heq. apply (Htl k g Hk Hg); [lia|done].
      * rewrite (Hout (seg_end g + 1)) by (done || lia). split; [done|]. split; [done|]. lia.
Qed.

Lemma segments_to_change_points_exact_witness :
  exists cps, segments_to_change_points [mkSegment 1 2 4; mkSegment 2 5 6; mkSegment 1 8 9] = Ok cps /\
    Sorted Z.lt cps /\
    forall c, In c cps <->
      0 < c /\ ((exists g, In g [mkSegment 1 2 4; mkSegment 2 5 6; mkSegment 1 8 9] /\ seg_start g = c) \/
                (exists g h, In g [mkSegment 1 2 4; mkSegment 2 5 6; mkSegment 1 8 9] /\
                   In h [mkSegment 1 2 4; mkSegment 2 5 6; mkSegment 1 8 9] /\
                   seg_end g + 1 = c /\ c <= seg_end h)).
Proof.
  apply segments_to_change_points_exact.
  - discriminate.
  - simpl. repeat split; repeat constructor; simpl; lia.
  - unfold touching_labels_differ. intros g h Hg Hh.
    simpl in Hg, Hh.
    destruct Hg as [<-|[<-|[<-|[]]]]; destruct Hh as [<-|[<-|[<-|[]]]]; simpl; lia.
Defined.

(** X11: for a non-empty, strictly increasing change-point series
    [x, t...], a [start] at most [x] and an [end] at least the last change
    point, [change_points_to_segments] returns the intervals
    [[start, x), [x, t_0), ..., [t_last, end)] in order; the intervals
    starting at or after [x] are labelled 1, 2, 3, ... in order, and the
    first interval [[start, x)] is labelled -1 when [start < x]. *)
Theorem change_points_to_segments_labels (x : Z) (t : list Z) (s e : Z) :
  Sorted Z.lt (x :: t) -> s <= x -> max_index (x :: t) <= e ->
  exists segs, change_points_to_segments (x :: t) (Some s) (Some e) = Ok segs /\
    map (fun v => v.1.1) segs = s :: x :: t /\
    map (fun v => v.1.2) segs = x :: t ++ [e] /\
    map snd segs = (if s <? x then -1 :: py_range 1 (Z.of_nat (length t) + 2)
                    else py_range 1 (Z.of_nat (length t) + 3)).
Proof.
  intros Hs Hsx Hme.
  pose proof (AnnotFacts.sorted_strongly _ Hs) as Hss.
  destruct (AnnotFacts.max_index_last (x :: t) ltac:(done) Hss) as [_ Hle].
  assert (Hx : Forall (fun l => x <= l) (x :: t)).
  { constructor; [lia|]. apply StronglySorted_inv in Hss as [_ Hf].
    eapply List.Forall_impl; [|exact Hf]. simpl. lia. }
  unfold change_points_to_segments. rewrite (AnnotFacts.np_min_sorted x t Hs). simpl.
  rewrite (proj2 (Z.ltb_ge x s) Hsx). simpl.
  unfold interval_index_from_breaks.
  rewrite AnnotFacts.intervals_of_sorted.
  2:{ change (s :: x :: t ++ [e]) with ((s :: x :: t) ++ [e]).
      apply AnnotFacts.sorted_snoc.
      - constructor; [by apply AnnotFacts.sorted_lt_le|]. constructor. done.
      - constructor; [inversion Hle; lia|]. eapply List.Forall_impl; [|exact Hle]. intros y Hy. cbv beta in Hy. lia. }
  eexists. split; [reflexivity|].
  change (s :: x :: t ++ [e]) with (s :: (x :: t) ++ [e]).
  rewrite ChangePointFacts.intervals_of_combine.
  assert (Hlen : length (s :: x :: t) = length ((x :: t) ++ [e])) by (rewrite length_app; simpl; lia).
  destruct (ChangePointFacts.label_intervals_bounds x 1 _ _ Hlen) as [H1 H2].
  split; [done|]. split; [done|].
  destruct (Z.ltb_spec s x) as [Hlt|Hge].
  - change (combine (s :: x :: t) ((x :: t) ++ [e]))
      with ((s, x) :: combine (x :: t) (t ++ [e])).
    cbn [label_intervals]. rewrite (proj2 (Z.leb_gt x s) Hlt), map_cons. f_equal.
    rewrite ChangePointFacts.label_intervals_in_range by (done || (rewrite length_app; simpl; lia)).
    simpl. f_equal. lia.
  - rewrite ChangePointFacts.label_intervals_in_range.
    + simpl. f_equal. lia.
    + done.
    + constructor; [lia|done].
Qed.

Lemma change_points_to_segments_labels_witness :
  exists segs, change_points_to_segments [1; 2; 5] (Some 0) (Some 7) = Ok segs /\
    map (fun v => v.1.1) segs = [0; 1; 2; 5] /\
    map (fun v => v.1.2) segs = [1; 2; 5] ++ [7] /\
    map snd segs = (if 0 <? 1 then -1 :: py_range 1 (Z.of_nat (length [2; 5]) + 2)
                    else py_range 1 (Z.of_nat (length [2; 5]) + 3)).
Proof.
  apply (change_points_to_segments_labels 1 [2; 5] 0 7).
  - repeat constructor; lia.
  - lia.
  - vm_compute. discriminate.
Defined.

(** X12: a dense series holding a 0 and a 1 goes through the points
    branch of [dense_to_sparse], and [sparse_to_dense] with the series'
    length rebuilds it with every 1 kept and every other value, 0 or not,
    turned into 0. *)
Theorem dense_to_sparse_points_round_trip (d : list Z) :
  In 0 d -> In 1 d ->
  exists p, dense_to_sparse d = Ok (Points p) /\
    sparse_to_dense (Points p) (Some (Z.of_nat (length d))) =
      Ok (map (fun v => if v =? 1 then 1 else 0) d).
Proof.
  intros H0 H1. unfold dense_to_sparse.
  replace (existsb (fun v => v =? 0) d) with true
    by (symmetry; apply existsb_exists; exists 0; split; [done|apply Z.eqb_refl]).
  set (p := np_where (map (fun v => v =? 1) d)).
  assert (Hp : forall z, In z p <-> exists i, d !! i = Some 1 /\ z = Z.of_nat i).
  { intros z. unfold p, np_where. rewrite AnnotFacts.where_from_spec. split.
    - intros (i & Hi & ->). rewrite AnnotFacts.lookup_map in Hi.
      destruct (d !! i) as [v|] eqn:Hv; [|done]. simpl in Hi. injection Hi as Hi.
      apply Z.eqb_eq in Hi. subst v. exists i. split; [done|lia].
    - intros (i & Hi & ->). exists i. rewrite AnnotFacts.lookup_map, Hi. split; [done|lia]. }
  exists p. split; [done|].
  assert (Hne : p <> []).
  { apply list_elem_of_In, list_elem_of_lookup in H1 as [i Hi].
    intros Hp0. assert (Hz : In (Z.of_nat i) p) by (apply Hp; eauto). by rewrite Hp0 in Hz. }
  assert (Hs : Sorted Z.lt p) by apply StronglySorted_Sorted, AnnotFacts.where_from_sorted.
  assert (Hin : forall z, In z p -> 0 <= z < Z.of_nat (length d)).
  { intros z Hz. apply Hp in Hz as (i & Hi & ->). apply lookup_lt_Some in Hi. lia. }
  assert (Hpos : Forall (Z.le 0) p).
  { apply List.Forall_forall. intros z Hz. apply Hin in Hz. lia. }
  destruct (AnnotFacts.max_index_last p Hne (AnnotFacts.sorted_strongly _ Hs)) as [Hlast _].
  assert (Hmax : max_index p < Z.of_nat (length d)).
  { apply Hin. apply list_elem_of_In. by apply last_Some_elem_of. }
  destruct (proj2 (AnnotFacts.sparse_to_dense_points p (Some (Z.of_nat (length d))) Hne Hs Hpos)
              Hmax) as (d' & Hd' & Hlen & Hval).
  simpl in Hlen. rewrite Nat2Z.id in Hlen.
  rewrite Hd'. f_equal. apply list_eq. intros i.
  rewrite AnnotFacts.lookup_map.
  destruct (decide (i < length d)%nat) as [Hi|Hi].
  - destruct (lookup_lt_is_Some_2 d i Hi) as [v Hv]. rewrite Hv. simpl.
    destruct (Hval i ltac:(lia)) as [Hy Hn].
    destruct (Z.eqb_spec v 1) as [->|Hv1].
    + apply Hy. apply Hp. eauto.
    + apply Hn. intros Hz. apply Hp in Hz as (j & Hj & Hij).
      assert (j = i) as -> by lia. congruence.
  - rewrite !lookup_ge_None_2 by lia. done.
Qed.

Lemma dense_to_sparse_points_round_trip_witness :
  exists p, dense_to_sparse [0; 1; 2; 1; 0] = Ok (Points p) /\
    sparse_to_dense (Points p) (Some (Z.of_nat (length [0; 1; 2; 1; 0]))) =
      Ok (map (fun v => if v =? 1 then 1 else 0) [0; 1; 2; 1; 0]).
Proof.
  apply dense_to_sparse_points_round_trip.
  - by left.
  - right. by left.
Defined.

(** X13: the points branch of [sparse_to_dense] takes its default length
    from the last point, not the largest: a point at or beyond the length
    used, e.g. a larger point listed before the last one, makes it raise
    [IndexError]. *)
Theorem sparse_to_dense_points_out_of_range (p : list Z) (length_ : option Z) (x y : Z) :
  last p = Some x -> 0 <= x -> x < default (x + 1) length_ ->
  In y p -> default (x + 1) length_ <= y ->
  sparse_to_dense (Points p) length_ = Err IndexError.
Proof.
  intros Hx Hx0 HL Hy HyL. simpl. rewrite (AnnotFacts.iloc_get_last _ _ Hx). simpl.
  set (L := default (x + 1) length_) in *.
  rewrite (proj2 (Z.leb_gt L x) HL). unfold np_full.
  rewrite (proj2 (Z.ltb_ge L 0)) by lia. simpl.
  apply DenseFacts.iloc_set_all_oob. exists y. split; [done|].
  rewrite length_replicate. lia.
Qed.

Lemma sparse_to_dense_points_out_of_range_witness :
  sparse_to_dense (Points [5; 2]) None = Err IndexError.
Proof.
  apply (sparse_to_dense_points_out_of_range [5; 2] None 2 5); simpl; lia || auto.
Defined.

(** X15: a dense series in which every value is -1 (no segment at all,
    the empty series included) becomes an empty segment table, so the
    round trip back through [sparse_to_dense] raises [IndexError] whatever
    the length argument. *)
Theorem dense_to_sparse_unlabelled (d : list Z) :
  (forall v, In v d -> v = -1) ->
  dense_to_sparse d = Ok (Segments []) /\
  forall length_, (y ← dense_to_sparse d; sparse_to_dense y length_) = Err IndexError.
Proof.
  intros Hm.
  assert (Hd : dense_to_sparse d = Ok (Segments [])).
  { destruct d as [|v t]; [reflexivity|].
    destruct (DenseFacts.dense_to_sparse_runs (v :: t)) as (segs & Hds & Hseg & _ & _).
    { done. }
    { intros x Hx. rewrite (Hm x Hx). lia. }
    rewrite Hds. do 2 f_equal.
    assert (Hl : forall g, In g segs -> seg_label g = -1).
    { intros g Hg. destruct (Hseg g Hg) as (Hb & _ & Hc & _).
      apply Hm. apply (DenseFacts.lookup_In_Z (v :: t) (seg_start g)).
      apply Hc. lia. }
    clear Hds Hseg. induction segs as [|g segs IH]; [done|].
    rewrite filter_cons.
    rewrite (Hl g (or_introl eq_refl)). simpl.
    apply IH. intros h Hh. apply Hl. by right. }
  split; [done|]. intros length_. rewrite Hd. reflexivity.
Qed.

Lemma dense_to_sparse_unlabelled_witness :
  (forall v, In v [-1; -1; -1] -> v = -1) /\
  dense_to_sparse [-1; -1; -1] = Ok (Segments []) /\
  forall length_, (y ← dense_to_sparse [-1; -1; -1]; sparse_to_dense y length_) = Err IndexError.
Proof.
  split; [intros v [<-|[<-|[<-|[]]]]; reflexivity|].
  apply (dense_to_sparse_unlabelled [-1; -1; -1]).
  intros v [<-|[<-|[<-|[]]]]; reflexivity.
Defined.
